(** * Quantum-Inspired Optimization Engine: the client-side pipeline

    A shallow embedding of the TypeScript front-end: the scenario catalog
    ([data/scenarios.ts]), the service wrapper around the generative-AI
    call ([services/geminiService.ts]), the derived statistics of the
    metrics panel ([components/Metrics.tsx]) and the session state
    transitions of [App.tsx].

    JavaScript numbers are IEEE 754 binary64 values.  Quantities that the
    program computes with real-valued arithmetic (coordinates, energies,
    distances, durations) are primitive floats, whose operations are the
    binary64 ones; quantities that the program only counts, indexes or
    compares for identity (node ids, step numbers, array indexes, the
    playback cursor) are integers. *)

From Stdlib Require Import ZArith List Sorted Ascii String Bool Lia PrimFloat Uint63 DecimalString.
From stdpp Require Import base list.
Import ListNotations.

#[local] Set Warnings "-inexact-float".

Local Open Scope Z_scope.

(** ** JavaScript built-ins used by the sources *)

Module JS.

(** An [Error] object, reduced to its [message]. *)
Definition Error := string.

(** Truthiness of a possibly undefined string: [undefined] and the empty
    string are falsy. *)
Definition truthy (s : option string) : bool :=
  match s with
  | Some EmptyString | None => false
  | Some _ => true
  end.

(** [a || b] on a string operand. *)
Definition or_else (a b : string) : string :=
  match a with EmptyString => b | _ => a end.

(** [arr[i]] for an integer [i]: [undefined] outside the array. *)
Definition at_ {A} (arr : list A) (i : Z) : option A :=
  if i <? 0 then None else arr !! Z.to_nat i.

(** [arr.length]. *)
Definition length {A} (arr : list A) : Z := Z.of_nat (List.length arr).

(** [arr.slice(start, end)]: negative arguments count from the end. *)
Definition slice {A} (arr : list A) (start end_ : Z) : list A :=
  let len := length arr in
  let clamp k := if k <? 0 then Z.max (len + k) 0 else Z.min k len in
  let s := clamp start in
  let e := clamp end_ in
  take (Z.to_nat (e - s)) (drop (Z.to_nat s) arr).

(** [arr.reduce((acc, x, index) => f(acc, x, index), init)]. *)
Fixpoint reduce_from {A B} (f : B -> A -> nat -> B) (arr : list A)
    (index : nat) (acc : B) : B :=
  match arr with
  | [] => acc
  | a :: rest => reduce_from f rest (S index) (f acc a index)
  end.

Definition reduce {A B} (f : B -> A -> nat -> B) (arr : list A) (init : B) : B :=
  reduce_from f arr 0%nat init.

(** [Array.from({ length: n }, (_, i) => f(i))]. *)
Definition Array_from {A} (n : nat) (f : nat -> A) : list A :=
  List.map f (List.seq 0 n).

(** A small non-negative integer as a number. *)
Definition of_nat (n : nat) : float := of_uint63 (Uint63.of_Z (Z.of_nat n)).

(** [Math.pow(v, 2)]. *)
Definition square (v : float) : float := (v * v)%float.

(** [Math.floor]: below 2^52 in magnitude, adding and subtracting 2^52
    rounds to an integer, which is then corrected downwards. *)
Definition Math_floor (v : float) : float :=
  if (v =? 0)%float then v
  else if (abs v <? 0x1p52)%float then
    let r := if (v <? 0)%float
             then (- ((- v + 0x1p52) - 0x1p52))%float
             else ((v + 0x1p52) - 0x1p52)%float in
    if (v <? r)%float then (r - 1)%float else r
  else v.

(** The template literal [`${n}`] for a non-negative integer. *)
Definition show_nat (n : nat) : string := NilEmpty.string_of_uint (Nat.to_uint n).

End JS.

(** ** types.ts *)

Module Node.
Record t := mk {
  id : Z;
  x : float;
  y : float;
  label : option string
}.
End Node.

Module Algorithm.
Inductive t := quantum_annealing | simulated_annealing | greedy | random.
End Algorithm.

Record OptimizationParams := {
  steps : Z;
  init_temp : float;
  tunneling_rate : float;
  algorithm : Algorithm.t
}.

Record IterationData := {
  step : Z;
  current_route : list Z;
  current_energy : float;
  best_route : list Z;
  best_energy : float;
  tunneling : bool
}.

Module FinalResult.
Record t := mk {
  best_route : list Z;
  best_energy : float;
  total_iterations : Z;
  tunneling_events : Z
}.
End FinalResult.

Record OptimizationSummary := {
  problem_type : string;
  total_nodes : Z;
  parameters_used : OptimizationParams
}.

Record OptimizationResponse := {
  summary : OptimizationSummary;
  iterations : list IterationData;
  final_result : FinalResult.t;
  explanation : string
}.

Inductive ScenarioType := random | logistics | circuit | delivery | india.

#[global] Instance ScenarioType_eq_dec : EqDecision ScenarioType.
Proof. solve_decision. Defined.

Record AppState := {
  nodes : list Node.t;
  params : OptimizationParams;
  result : option OptimizationResponse;
  isOptimizing : bool;
  playbackIndex : Z;
  isPlaying : bool;
  error : option string;
  scenario : ScenarioType;
  startNodeId : Z;
  executionTime : float
}.

(** ** data/scenarios.ts *)

Module ScenarioConfig.
Record t := mk {
  label : string;
  description : string;
  fixedNodes : bool;
  nodes : option (list Node.t)
}.
End ScenarioConfig.

Section Scenarios.

Local Open Scope float_scope.

Let labelled (i : Z) (px py : float) (name : string) : Node.t :=
  Node.mk i px py (Some name).
Let bare (i : Z) (px py : float) : Node.t :=
  Node.mk i px py None.

Definition india_nodes : list Node.t :=
  [ labelled 0 30 5 "Srinagar"; labelled 1 32 25 "Delhi";
    labelled 2 25 30 "Jaipur"; labelled 3 45 30 "Lucknow";
    labelled 4 55 32 "Patna"; labelled 5 85 30 "Guwahati";
    labelled 6 70 45 "Kolkata"; labelled 7 65 55 "Bhubaneswar";
    labelled 8 10 40 "Ahmedabad"; labelled 9 12 60 "Mumbai";
    labelled 10 18 65 "Pune"; labelled 11 40 50 "Nagpur";
    labelled 12 40 70 "Hyderabad"; labelled 13 35 85 "Bangalore";
    labelled 14 45 85 "Chennai"; labelled 15 32 95 "Thiruvananthapuram" ].

Definition logistics_nodes : list Node.t :=
  [ labelled 0 10 15 "Seattle"; labelled 1 10 75 "Los Angeles";
    labelled 2 15 25 "Boise"; labelled 3 25 65 "Phoenix";
    labelled 4 35 25 "Denver"; labelled 5 45 60 "Dallas";
    labelled 6 50 40 "Kansas City"; labelled 7 55 20 "Chicago";
    labelled 8 60 70 "New Orleans"; labelled 9 75 50 "Atlanta";
    labelled 10 80 30 "D.C."; labelled 11 85 15 "New York";
    labelled 12 90 20 "Boston"; labelled 13 85 85 "Miami" ].

Definition circuit_nodes : list Node.t :=
  [ bare 0 40 40; bare 1 42 40; bare 2 40 42; bare 3 42 42;
    bare 4 60 40; bare 5 62 40; bare 6 60 42; bare 7 62 42;
    bare 8 10 10; bare 9 10 90; bare 10 90 10; bare 11 90 90;
    bare 12 20 50; bare 13 30 50; bare 14 70 50; bare 15 80 50 ].

(** The delivery grid is computed once, when the module is loaded;
    [Math_random k] is the [k]-th draw of [Math.random()] made there
    (the x coordinate of a house is evaluated before its y). *)
Definition delivery_nodes (Math_random : nat -> float) : list Node.t :=
  JS.Array_from 20 (fun i =>
    Node.mk (Z.of_nat i)
      (JS.of_nat ((i mod 5) * 20 + 10) + (Math_random (2 * i)%nat * 5 - 2.5))
      (JS.of_nat ((i / 5) * 20 + 10) + (Math_random (2 * i + 1)%nat * 5 - 2.5))
      (Some ("House " ++ JS.show_nat (i + 1))%string)).

Definition SCENARIOS (Math_random : nat -> float) (key : ScenarioType)
    : ScenarioConfig.t :=
  match key with
  | random =>
      ScenarioConfig.mk "Random Field"
        "Abstract mathematical optimization on a random field."
        false None
  | india =>
      ScenarioConfig.mk "Indian Cities Tour"
        "Optimizing travel route across major Indian cities."
        true (Some india_nodes)
  | logistics =>
      ScenarioConfig.mk "US Supply Chain"
        "Optimizing a distribution route across major US tech hubs."
        true (Some logistics_nodes)
  | circuit =>
      ScenarioConfig.mk "PCB Trace Drilling"
        "Minimizing movement for a CNC drill on a circuit board."
        true (Some circuit_nodes)
  | delivery =>
      ScenarioConfig.mk "Last-Mile Delivery"
        "Optimizing neighborhood parcel drop-offs."
        true (Some (delivery_nodes Math_random))
  end.

End Scenarios.

(** ** services/geminiService.ts *)

Module Payload.
Record t := mk {
  context : string;
  problem : string;
  start_node_id : Z;
  nodes : list Node.t;
  dist_matrix : list (list float);
  params : OptimizationParams
}.
End Payload.

(** The argument of [ai.models.generateContent]; [contents] is the payload
    that the source serialises with [JSON.stringify]. *)
Module GenerateContentRequest.
Record t := mk {
  model : string;
  contents : Payload.t;
  systemInstruction : string;
  responseMimeType : string
}.
End GenerateContentRequest.

(** What the service module takes from its surroundings: the process
    environment, the prompt constant of the module (a template literal that
    no definition inspects), two built-ins, and the behaviour of the hosted
    model behind the SDK client: [generateContent apiKey request] is the
    outcome of awaiting the call, a rejection or a response whose [text]
    may be undefined. *)
Record Host := {
  API_KEY : option string;
  SYSTEM_INSTRUCTION : string;
  toFixed2 : float -> float;
  JSON_parse : string -> JS.Error + OptimizationResponse;
  generateContent : string -> GenerateContentRequest.t -> JS.Error + option string
}.

(** Observable effects of the service module, in the order they happen. *)
Inductive Event :=
| NewGoogleGenAI (apiKey : string)
| GenerateContent (apiKey : string) (request : GenerateContentRequest.t)
| ConsoleError (prefix : string) (e : JS.Error).

(** An asynchronous computation that may throw: it extends the log of
    effects and ends in an error or a value. *)
Definition Promise (A : Type) : Type := list Event -> list Event * (JS.Error + A).

Definition resolve {A} (a : A) : Promise A := fun log => (log, inr a).

Definition throw {A} (e : JS.Error) : Promise A := fun log => (log, inl e).

Definition await {A B} (m : Promise A) (k : A -> Promise B) : Promise B :=
  fun log =>
    match m log with
    | (log', inl e) => (log', inl e)
    | (log', inr a) => k a log'
    end.

Definition try_catch {A} (body : Promise A) (handler : JS.Error -> Promise A)
    : Promise A :=
  fun log =>
    match body log with
    | (log', inl e) => handler e log'
    | (log', inr a) => (log', inr a)
    end.

Definition emit (ev : Event) : Promise unit := fun log => (log ++ [ev], inr tt).

Definition settle {A} (outcome : JS.Error + A) : Promise A := fun log => (log, outcome).

Notation "'do' x <- m ; k" := (await m (fun x => k))
  (at level 10, x name, m at level 100, k at level 200).
Notation "'exec' m ; k" := (await m (fun _ => k))
  (at level 10, m at level 100, k at level 200).

(** Running a promise from an empty log. *)
Definition run {A} (m : Promise A) : list Event * (JS.Error + A) := m [].

(** The calls that reach the external collaborator (the SDK client). *)
Definition is_collaborator_call (ev : Event) : bool :=
  match ev with
  | NewGoogleGenAI _ | GenerateContent _ _ => true
  | ConsoleError _ _ => false
  end.

Definition collaborator_calls (log : list Event) : nat :=
  List.length (List.filter is_collaborator_call log).

Definition calculateDistance (n1 n2 : Node.t) : float :=
  PrimFloat.sqrt (JS.square (Node.x n1 - Node.x n2)
                  + JS.square (Node.y n1 - Node.y n2))%float.

Definition generateDistanceMatrix (h : Host) (nodes : list Node.t)
    : list (list float) :=
  List.map (fun n1 =>
    List.map (fun n2 => toFixed2 h (calculateDistance n1 n2)) nodes) nodes.

(** The payload and the argument of the call that [runOptimization]
    builds; [context] defaults when the caller leaves it out. *)
Definition optimizationPayload (h : Host) (nodes : list Node.t)
    (params : OptimizationParams) (startNodeId : Z) (context : option string)
    : Payload.t :=
  let context := default "Abstract Mathematical Optimization"%string context in
  let distMatrix := generateDistanceMatrix h nodes in
  Payload.mk context "tsp"%string startNodeId nodes distMatrix params.

Definition optimizationRequest (h : Host) (nodes : list Node.t)
    (params : OptimizationParams) (startNodeId : Z) (context : option string)
    : GenerateContentRequest.t :=
  GenerateContentRequest.mk "gemini-2.5-flash"%string
    (optimizationPayload h nodes params startNodeId context)
    (SYSTEM_INSTRUCTION h) "application/json"%string.

Definition runOptimization (h : Host) (nodes : list Node.t)
    (params : OptimizationParams) (startNodeId : Z) (context : option string)
    : Promise OptimizationResponse :=
  match API_KEY h with
  | None | Some EmptyString =>
      throw "API Key is missing. Please set REACT_APP_GEMINI_API_KEY."%string
  | Some apiKey =>
      exec emit (NewGoogleGenAI apiKey);
      let request :=
        optimizationRequest h nodes params startNodeId context in
      try_catch
        (exec emit (GenerateContent apiKey request);
         do text <- settle (generateContent h apiKey request);
         match text with
         | None | Some EmptyString =>
             throw "No response from optimization engine."%string
         | Some text => settle (JSON_parse h text)
         end)
        (fun error =>
           exec emit (ConsoleError "Optimization failed:"%string error);
           throw error)
  end.

(** ** components/Metrics.tsx *)

(** [nodes.find(n => n.id === id)]. *)
Definition find_node (nodes : list Node.t) (id : Z) : option Node.t :=
  List.find (fun n => Node.id n =? id) nodes.

(** Helper to calculate total route distance.  [nextId] is undefined when
    the index is outside the array, and then no node matches it. *)
Definition calculateRouteDistance (nodes : list Node.t) (routeIds : list Z)
    : float :=
  if (JS.length routeIds <? 2) || (JS.length nodes =? 0) then 0%float
  else
    JS.reduce (fun total id index =>
      let nextId := routeIds !! ((index + 1) mod List.length routeIds)%nat in
      let n1 := find_node nodes id in
      let n2 := nextId ≫= find_node nodes in
      match n1, n2 with
      | Some n1, Some n2 =>
          let dist :=
            PrimFloat.sqrt (JS.square (Node.x n1 - Node.x n2)
                            + JS.square (Node.y n1 - Node.y n2))%float in
          (total + dist)%float
      | _, _ => total
      end) routeIds 0%float.

Module PerformanceStats.
Record t := mk {
  initialEnergy : float;
  finalEnergy : float;
  improvement : float;
  convergenceStep : Z;
  tunnelingTotal : Z
}.
End PerformanceStats.

Module Derived.
Record t := mk {
  cumulativeTunneling : Z;
  chartData : list IterationData;
  latest : option IterationData;
  isFinished : bool;
  routeDetails : list Z;
  performanceStats : option PerformanceStats.t;
  currentRealDist : float;
  bestRealDist : float
}.
End Derived.

(** The test of the search for the step where the best energy was first
    achieved. *)
Definition near_final (finalEnergy : float) (it : IterationData) : bool :=
  (abs (best_energy it - finalEnergy) <? 0.001)%float.

(** The step where the best energy was first achieved; [None] stands for
    the [TypeError] of reading [step] from an undefined frame. *)
Definition convergenceStep (data : OptimizationResponse) : option Z :=
  let finalEnergy := FinalResult.best_energy (final_result data) in
  match List.find (near_final finalEnergy) (iterations data) with
  | Some bestIter => Some (step bestIter)
  | None =>
      step <$> JS.at_ (iterations data) (JS.length (iterations data) - 1)
  end.

(** The memoised derivation of the panel; [None] stands for the
    [TypeError] thrown when a property of an undefined frame is read. *)
Definition derive (data : option OptimizationResponse) (currentStepIndex : Z)
    (nodes : list Node.t) : option Derived.t :=
  match data with
  | None => Some (Derived.mk 0 [] None false [] None 0%float 0%float)
  | Some data =>
      let sliced := JS.slice (iterations data) 0 (currentStepIndex + 1) in
      let tunnelingCount := JS.length (List.filter tunneling sliced) in
      currentIteration ← JS.at_ (iterations data) currentStepIndex;
      let currentRouteIds := current_route currentIteration in
      let currentRealDist := calculateRouteDistance nodes currentRouteIds in
      let bestRealDist :=
        calculateRouteDistance nodes (best_route currentIteration) in
      first ← JS.at_ (iterations data) 0;
      let initialEnergy := current_energy first in
      let finalEnergy := FinalResult.best_energy (final_result data) in
      let improvement :=
        ((initialEnergy - finalEnergy) / initialEnergy * 100)%float in
      convergenceStep ← convergenceStep data;
      let performanceStats :=
        PerformanceStats.mk initialEnergy finalEnergy improvement
          convergenceStep
          (FinalResult.tunneling_events (final_result data)) in
      Some (Derived.mk tunnelingCount sliced (Some currentIteration)
              (currentStepIndex =? JS.length (iterations data) - 1)
              currentRouteIds (Some performanceStats)
              currentRealDist bestRealDist)
  end.

(** ** App.tsx *)

Definition INITIAL_NODES_COUNT : nat := 15.

(** [Math_random k] is the [k]-th draw of [Math.random()] made by the
    call. *)
Definition generateNodes (Math_random : nat -> float) (count : nat)
    : list Node.t :=
  JS.Array_from count (fun i =>
    Node.mk (Z.of_nat i)
      (JS.Math_floor (Math_random (2 * i)%nat * 90) + 5)%float
      (JS.Math_floor (Math_random (2 * i + 1)%nat * 90) + 5)%float
      None).

Definition initialState : AppState :=
  {| nodes := [];
     params := {| steps := 5000; init_temp := 50; tunneling_rate := 0.25;
                  algorithm := Algorithm.quantum_annealing |};
     result := None;
     isOptimizing := false;
     playbackIndex := -1;
     isPlaying := false;
     error := None;
     scenario := random;
     startNodeId := 0;
     executionTime := 0 |}.

(** Handle scenario switching: the effect that runs when the selected
    scenario or the node count has changed.  [load_random] are the draws
    made when the catalog was loaded, [Math_random] those of this run. *)
Definition scenarioEffect (load_random Math_random : nat -> float)
    (nodeCount : nat) (prev : AppState) : AppState :=
  let scenarioConfig := SCENARIOS load_random (scenario prev) in
  let newNodes :=
    match ScenarioConfig.fixedNodes scenarioConfig,
          ScenarioConfig.nodes scenarioConfig with
    | true, Some fixed => fixed
    | _, _ => generateNodes Math_random nodeCount
    end in
  {| nodes := newNodes;
     params := params prev;
     result := None;
     isOptimizing := isOptimizing prev;
     playbackIndex := -1;
     isPlaying := false;
     error := error prev;
     scenario := scenario prev;
     startNodeId := 0;
     executionTime := 0 |}.

Definition handleSetScenario (sc : ScenarioType) (prev : AppState) : AppState :=
  {| nodes := nodes prev;
     params := params prev;
     result := result prev;
     isOptimizing := isOptimizing prev;
     playbackIndex := playbackIndex prev;
     isPlaying := isPlaying prev;
     error := error prev;
     scenario := sc;
     startNodeId := startNodeId prev;
     executionTime := executionTime prev |}.

(** A click on a scenario button: the handler, and then the effect, which
    React runs again only after a render in which one of its dependencies
    differs from the previous render, here the selected scenario. *)
Definition selectScenario (load_random Math_random : nat -> float)
    (nodeCount : nat) (sc : ScenarioType) (prev : AppState) : AppState :=
  let next := handleSetScenario sc prev in
  if decide (scenario next = scenario prev) then next
  else scenarioEffect load_random Math_random nodeCount next.

Definition handleSetStartNodeId (id : Z) (prev : AppState) : AppState :=
  {| nodes := nodes prev;
     params := params prev;
     result := result prev;
     isOptimizing := isOptimizing prev;
     playbackIndex := playbackIndex prev;
     isPlaying := isPlaying prev;
     error := error prev;
     scenario := scenario prev;
     startNodeId := id;
     executionTime := executionTime prev |}.

Definition handleResetNodes (Math_random : nat -> float) (nodeCount : nat)
    (prev : AppState) : AppState :=
  match scenario prev with
  | random =>
      {| nodes := generateNodes Math_random nodeCount;
         params := params prev;
         result := None;
         isOptimizing := isOptimizing prev;
         playbackIndex := -1;
         isPlaying := false;
         error := error prev;
         scenario := scenario prev;
         startNodeId := 0;
         executionTime := 0 |}
  | _ => prev
  end.

(** [handleOptimize] updates the state twice: when the request starts, and
    when the awaited call has resolved or thrown. *)
Definition optimizeStarted (prev : AppState) : AppState :=
  {| nodes := nodes prev;
     params := params prev;
     result := None;
     isOptimizing := true;
     playbackIndex := -1;
     isPlaying := isPlaying prev;
     error := None;
     scenario := scenario prev;
     startNodeId := startNodeId prev;
     executionTime := 0 |}.

Definition optimizeResolved (response : OptimizationResponse)
    (elapsed : float) (prev : AppState) : AppState :=
  {| nodes := nodes prev;
     params := params prev;
     result := Some response;
     isOptimizing := false;
     playbackIndex := 0;
     isPlaying := true;
     error := error prev;
     scenario := scenario prev;
     startNodeId := startNodeId prev;
     executionTime := elapsed |}.

Definition optimizeThrew (err : JS.Error) (prev : AppState) : AppState :=
  {| nodes := nodes prev;
     params := params prev;
     result := result prev;
     isOptimizing := false;
     playbackIndex := playbackIndex prev;
     isPlaying := isPlaying prev;
     error := Some (JS.or_else err "An unexpected error occurred");
     scenario := scenario prev;
     startNodeId := startNodeId prev;
     executionTime := executionTime prev |}.

(** The whole request, from the click to the last state update, with the
    log of the service's effects.  [startTime] and [endTime] are the two
    readings of [performance.now()]. *)
Definition handleOptimize (load_random : nat -> float) (h : Host)
    (startTime endTime : float) (state : AppState)
    : list Event * AppState :=
  let pending := optimizeStarted state in
  let context :=
    ScenarioConfig.description (SCENARIOS load_random (scenario state)) in
  match run (runOptimization h (nodes state) (params state)
               (startNodeId state) (Some context)) with
  | (log, inr response) =>
      (log, optimizeResolved response (endTime - startTime)%float pending)
  | (log, inl err) => (log, optimizeThrew err pending)
  end.

(** The animation loop: the callback that the interval runs. *)
Definition tick (prev : AppState) : AppState :=
  match result prev with
  | None => prev
  | Some response =>
      if playbackIndex prev >=? JS.length (iterations response) - 1 then
        {| nodes := nodes prev;
           params := params prev;
           result := result prev;
           isOptimizing := isOptimizing prev;
           playbackIndex := playbackIndex prev;
           isPlaying := false;
           error := error prev;
           scenario := scenario prev;
           startNodeId := startNodeId prev;
           executionTime := executionTime prev |}
      else
        {| nodes := nodes prev;
           params := params prev;
           result := result prev;
           isOptimizing := isOptimizing prev;
           playbackIndex := playbackIndex prev + 1;
           isPlaying := isPlaying prev;
           error := error prev;
           scenario := scenario prev;
           startNodeId := startNodeId prev;
           executionTime := executionTime prev |}
  end.

(** The effect keeps an interval installed exactly while the state is
    playing and holds a result. *)
Definition intervalInstalled (state : AppState) : bool :=
  isPlaying state && bool_decide (is_Some (result state)).

(** One period of 2000 ms: the callback runs if the interval is installed. *)
Definition period (state : AppState) : AppState :=
  if intervalInstalled state then tick state else state.

(** [n] periods. *)
Definition periods (n : nat) (state : AppState) : AppState :=
  Nat.iter n period state.

(** The play button. *)
Definition togglePlay (prev : AppState) : AppState :=
  let isAtEnd :=
    match result prev with
    | Some response =>
        playbackIndex prev >=? JS.length (iterations response) - 1
    | None => false
    end in
  if isAtEnd then
    {| nodes := nodes prev;
       params := params prev;
       result := result prev;
       isOptimizing := isOptimizing prev;
       playbackIndex := 0;
       isPlaying := true;
       error := error prev;
       scenario := scenario prev;
       startNodeId := startNodeId prev;
       executionTime := executionTime prev |}
  else
    {| nodes := nodes prev;
       params := params prev;
       result := result prev;
       isOptimizing := isOptimizing prev;
       playbackIndex := playbackIndex prev;
       isPlaying := negb (isPlaying prev);
       error := error prev;
       scenario := scenario prev;
       startNodeId := startNodeId prev;
       executionTime := executionTime prev |}.

(** The skip button, rendered only while a result is held; [None] stands
    for the [TypeError] of the asserted [prev.result!]. *)
Definition skipToEnd (prev : AppState) : option AppState :=
  response ← result prev;
  Some {| nodes := nodes prev;
          params := params prev;
          result := result prev;
          isOptimizing := isOptimizing prev;
          playbackIndex := JS.length (iterations response) - 1;
          isPlaying := false;
          error := error prev;
          scenario := scenario prev;
          startNodeId := startNodeId prev;
          executionTime := executionTime prev |}.

(** The dismiss button of the error overlay. *)
Definition dismissError (prev : AppState) : AppState :=
  {| nodes := nodes prev;
     params := params prev;
     result := result prev;
     isOptimizing := isOptimizing prev;
     playbackIndex := playbackIndex prev;
     isPlaying := isPlaying prev;
     error := None;
     scenario := scenario prev;
     startNodeId := startNodeId prev;
     executionTime := executionTime prev |}.

(** Derived state for the visualizer. *)
Definition currentIteration (state : AppState) : option IterationData :=
  match result state with
  | Some response =>
      if playbackIndex state >=? 0
      then JS.at_ (iterations response) (playbackIndex state)
      else None
  | None => None
  end.

(** What the metrics panel computes for a state. *)
Definition metricsOf (state : AppState) : option Derived.t :=
  derive (result state) (playbackIndex state) (nodes state).

(** The named states of the playback controller. *)
Definition Ready (state : AppState) (response : OptimizationResponse) : Prop :=
  result state = Some response /\ playbackIndex state = 0
  /\ isPlaying state = true.

Definition Finished (state : AppState) (response : OptimizationResponse) : Prop :=
  result state = Some response
  /\ playbackIndex state = JS.length (iterations response) - 1.

(** *** The earlier revision of App.tsx

    It differs in the play button, which only flips the flag, and in the
    animation callback, which also stops when the state is not playing. *)
Module Earlier.

Definition togglePlay (prev : AppState) : AppState :=
  {| nodes := nodes prev;
     params := params prev;
     result := result prev;
     isOptimizing := isOptimizing prev;
     playbackIndex := playbackIndex prev;
     isPlaying := negb (isPlaying prev);
     error := error prev;
     scenario := scenario prev;
     startNodeId := startNodeId prev;
     executionTime := executionTime prev |}.

Definition tick (prev : AppState) : AppState :=
  let stop :=
    negb (isPlaying prev)
    || match result prev with
       | None => true
       | Some response =>
           playbackIndex prev >=? JS.length (iterations response) - 1
       end in
  if stop then
    {| nodes := nodes prev;
       params := params prev;
       result := result prev;
       isOptimizing := isOptimizing prev;
       playbackIndex := playbackIndex prev;
       isPlaying := false;
       error := error prev;
       scenario := scenario prev;
       startNodeId := startNodeId prev;
       executionTime := executionTime prev |}
  else
    {| nodes := nodes prev;
       params := params prev;
       result := result prev;
       isOptimizing := isOptimizing prev;
       playbackIndex := playbackIndex prev + 1;
       isPlaying := isPlaying prev;
       error := error prev;
       scenario := scenario prev;
       startNodeId := startNodeId prev;
       executionTime := executionTime prev |}.

End Earlier.

(** ** The closed tour, leg by leg *)

(** The consecutive pairs of a cyclic sequence, the last element paired
    with the first. *)
Definition closed_pairs {A} (l : list A) : list (A * A) := zip l (rotate 1 l).

(** The length of one leg of a route, when both of its ends resolve. *)
Definition leg (nodes : list Node.t) (p : Z * Z) : option float :=
  n1 ← find_node nodes p.1;
  n2 ← find_node nodes p.2;
  Some (calculateDistance n1 n2).

Definition legs (nodes : list Node.t) (routeIds : list Z) : list (option float) :=
  leg nodes <$> closed_pairs routeIds.

(** A leg with an unresolved end leaves the running total as it is. *)
Definition add_leg (total : float) (l : option float) : float :=
  match l with
  | Some dist => (total + dist)%float
  | None => total
  end.

(** The running total of a list of legs, from left to right. *)
Definition total_of (ls : list (option float)) : float := foldl add_leg 0%float ls.

Module Spec.

(** [routeDistance] in the words of the specification: the closed-tour
    length, 0 for fewer than two entries, 0 when the lookup of any id
    fails. *)
Definition routeDistance (nodes : list Node.t) (routeIds : list Z) : float :=
  if JS.length routeIds <? 2 then 0%float
  else
    match mapM (find_node nodes) routeIds with
    | None => 0%float
    | Some tour =>
        foldl (fun total p => (total + calculateDistance p.1 p.2)%float)
          0%float (closed_pairs tour)
    end.

End Spec.

(** ** Notions used in the statements *)

(** The outcome of the service call that [handleOptimize] awaits. *)
Definition awaited (load_random : nat -> float) (h : Host) (s : AppState)
    : list Event * (JS.Error + OptimizationResponse) :=
  run (runOptimization h (nodes s) (params s) (startNodeId s)
         (Some (ScenarioConfig.description
                  (SCENARIOS load_random (scenario s))))).

(** A state with its cursor moved, and a state with its play flag set. *)
Definition with_cursor (c : Z) (s : AppState) : AppState :=
  {| nodes := nodes s;
     params := params s;
     result := result s;
     isOptimizing := isOptimizing s;
     playbackIndex := c;
     isPlaying := isPlaying s;
     error := error s;
     scenario := scenario s;
     startNodeId := startNodeId s;
     executionTime := executionTime s |}.

Definition with_playing (b : bool) (s : AppState) : AppState :=
  {| nodes := nodes s;
     params := params s;
     result := result s;
     isOptimizing := isOptimizing s;
     playbackIndex := playbackIndex s;
     isPlaying := b;
     error := error s;
     scenario := scenario s;
     startNodeId := startNodeId s;
     executionTime := executionTime s |}.

(** The ids 0, 1, ..., n-1. *)
Definition ids_upto (n : nat) : list Z := Z.of_nat <$> seq 0 n.

(** ** Concrete sessions *)

(** Two stops on a line, ten units apart. *)
Definition two_stops : list Node.t :=
  [ Node.mk 0 0 0 None; Node.mk 1 10 0 None ].

(** The quotation mark, and a quoted JSON string. *)
Definition dq : string := String "034"%char EmptyString.
Definition quoted (s : string) : string := (dq ++ s ++ dq)%string.

(** A well-formed response that carries no frame. *)
Definition no_frames : OptimizationResponse :=
  {| summary := {| problem_type := "tsp"; total_nodes := 2;
                   parameters_used := params initialState |};
     iterations := [];
     final_result := FinalResult.mk [] 0 0 0;
     explanation := EmptyString |}.

(** Its JSON text. *)
Definition no_frames_text : string :=
  ("{" ++ quoted "summary" ++ ":{"
       ++ quoted "problem_type" ++ ":" ++ quoted "tsp" ++ ","
       ++ quoted "total_nodes" ++ ":2,"
       ++ quoted "parameters_used" ++ ":{"
           ++ quoted "steps" ++ ":5000,"
           ++ quoted "init_temp" ++ ":50,"
           ++ quoted "tunneling_rate" ++ ":0.25,"
           ++ quoted "algorithm" ++ ":" ++ quoted "quantum_annealing" ++ "}},"
       ++ quoted "iterations" ++ ":[],"
       ++ quoted "final_result" ++ ":{"
           ++ quoted "best_route" ++ ":[],"
           ++ quoted "best_energy" ++ ":0,"
           ++ quoted "total_iterations" ++ ":0,"
           ++ quoted "tunneling_events" ++ ":0},"
       ++ quoted "explanation" ++ ":" ++ quoted EmptyString ++ "}")%string.

(** A host with the given credential whose model gives the given answer to
    every request.  Its [JSON_parse] knows the one text above; its
    [toFixed2] is exact on the whole-number distances of [two_stops]. *)
Definition host_answering (key : option string)
    (answer : JS.Error + option string) : Host :=
  {| API_KEY := key;
     SYSTEM_INSTRUCTION := "You are the Optimization Engine.";
     toFixed2 := fun v => v;
     JSON_parse := fun text =>
       if String.eqb text no_frames_text then inr no_frames
       else inl "Unexpected token"%string;
     generateContent := fun _ _ => answer |}.

(** A response of two frames over [two_stops]. *)
Definition two_frames : OptimizationResponse :=
  {| summary := {| problem_type := "tsp"; total_nodes := 2;
                   parameters_used := params initialState |};
     iterations :=
       [ {| step := 0; current_route := [0; 1]; current_energy := 20;
            best_route := [0; 1]; best_energy := 20; tunneling := false |};
         {| step := 2500; current_route := [1; 0]; current_energy := 20;
            best_route := [0; 1]; best_energy := 20; tunneling := true |} ];
     final_result := FinalResult.mk [0; 1] 20 5000 1;
     explanation := "Both orders of two stops have the same length." |}.

(** A session that displays the last frame of [two_frames], paused. *)
Definition showing_two_frames : AppState :=
  {| nodes := two_stops;
     params := params initialState;
     result := Some two_frames;
     isOptimizing := false;
     playbackIndex := 1;
     isPlaying := false;
     error := None;
     scenario := random;
     startNodeId := 0;
     executionTime := 1234 |}.

(** A host that holds a credential and whose model answers with the text
    of [no_frames]. *)
Definition host_no_frames : Host :=
  host_answering (Some "secret"%string) (inr (Some no_frames_text)).

(** A host without a credential; its model would answer if it were asked. *)
Definition host_no_key : Host :=
  host_answering None (inr (Some no_frames_text)).

(** The state in which a resolved request leaves the session. *)
Definition ready_two_frames : AppState :=
  optimizeResolved two_frames 0 (optimizeStarted showing_two_frames).

(** * The rest of the interface *)

(** ** App.tsx: parameters *)

(** [React.SetStateAction]: a new value, or a function of the old one. *)
Inductive SetStateAction (A : Type) :=
| NewState (a : A)
| Updater (f : A -> A).
Arguments NewState {A} a.
Arguments Updater {A} f.

Definition handleParamsChange (newParams : SetStateAction OptimizationParams)
    (prev : AppState) : AppState :=
  {| nodes := nodes prev;
     params := match newParams with
               | Updater f => f (params prev)
               | NewState v => v
               end;
     result := result prev;
     isOptimizing := isOptimizing prev;
     playbackIndex := playbackIndex prev;
     isPlaying := isPlaying prev;
     error := error prev;
     scenario := scenario prev;
     startNodeId := startNodeId prev;
     executionTime := executionTime prev |}.

(** ** components/Metrics.tsx: the active route sequence *)

(** The template literal [`${id}`] for an integer, and for an id that may
    be undefined. *)
Definition show_Z (z : Z) : string := NilEmpty.string_of_int (Z.to_int z).

Definition show_id (id : option Z) : string :=
  match id with
  | Some z => show_Z z
  | None => "undefined"
  end.

Module RouteRow.
Record t := mk {
  number : nat;
  currentLabel : string;
  distText : string;
  nextLabel : string
}.
End RouteRow.

(** A label that is present and not empty replaces the placeholder. *)
Definition label_or (placeholder : string) (n : Node.t) : string :=
  match Node.label n with
  | Some (String c rest) => String c rest
  | _ => placeholder
  end.

(** One row of the table; [toFixed1] is [d.toFixed(1)]. *)
Definition routeRow (toFixed1 : float -> string) (nodes : list Node.t)
    (routeDetails : list Z) (idx : nat) (nodeId : Z) : RouteRow.t :=
  let nextNodeId :=
    routeDetails !! ((idx + 1) mod List.length routeDetails)%nat in
  let currentNode := find_node nodes nodeId in
  let nextNode := nextNodeId ≫= find_node nodes in
  let currentLabel := ("Node " ++ show_Z nodeId)%string in
  let nextLabel := ("Node " ++ show_id nextNodeId)%string in
  match currentNode, nextNode with
  | Some currentNode, Some nextNode =>
      let d :=
        PrimFloat.sqrt
          (JS.square (Node.x currentNode - Node.x nextNode)
           + JS.square (Node.y currentNode - Node.y nextNode))%float in
      RouteRow.mk (idx + 1) (label_or currentLabel currentNode)
        (toFixed1 d) (label_or nextLabel nextNode)
  | _, _ => RouteRow.mk (idx + 1) currentLabel "--" nextLabel
  end.

Definition routeRows (toFixed1 : float -> string) (nodes : list Node.t)
    (routeDetails : list Z) : list RouteRow.t :=
  imap (routeRow toFixed1 nodes routeDetails) routeDetails.

(** ** components/Visualizer.tsx *)

(** [Number_toString] is the conversion of a number by a template
    literal. *)
Section Visualizer.

Variable Number_toString : float -> string.
Variable nodes : list Node.t.

(** The point of a route entry, empty when the id resolves to no node. *)
Definition point (idx : Z) : string :=
  match find_node nodes idx with
  | Some n => (Number_toString (Node.x n) ++ "," ++ Number_toString (Node.y n))%string
  | None => EmptyString
  end.

(** The points that [filter(Boolean)] keeps. *)
Definition points (route : list Z) : list string :=
  List.filter (fun p => JS.truthy (Some p)) (List.map point route).

(** The path data of a route, closed by [Z]. *)
Definition pathD (route : option (list Z)) : string :=
  match route with
  | None | Some [] => EmptyString
  | Some route => ("M " ++ String.concat " L " (points route) ++ " Z")%string
  end.

(** The invisible segment from a stop to the midpoint of its leg, which
    carries the arrow head; nothing when an end does not resolve. *)
Definition arrow (route : list Z) (idx : nat) (nodeId : Z) : option string :=
  let nextIdx := ((idx + 1) mod List.length route)%nat in
  let nextNodeId := route !! nextIdx in
  n1 ← find_node nodes nodeId;
  n2 ← nextNodeId ≫= find_node nodes;
  let mx := ((Node.x n1 + Node.x n2) / 2)%float in
  let my := ((Node.y n1 + Node.y n2) / 2)%float in
  Some ("M " ++ Number_toString (Node.x n1) ++ " "
            ++ Number_toString (Node.y n1) ++ " L "
            ++ Number_toString mx ++ " " ++ Number_toString my)%string.

Definition arrows (route : option (list Z)) : list (option string) :=
  match route with
  | None => []
  | Some route => imap (arrow route) route
  end.

End Visualizer.

(** ** The session as a transition system *)

(** What can happen to a mounted [App]: a run of the scenario effect (on
    mount, or after the node count slider has moved), the controls of the
    panel, the three state updates of an optimize request, a period of the
    animation interval, and the buttons of the top bar and of the error
    overlay. *)
Inductive Action :=
| OnEffect (Math_random : nat -> float) (nodeCount : nat)
| OnScenario (Math_random : nat -> float) (nodeCount : nat) (sc : ScenarioType)
| OnStartNode (id : Z)
| OnReset (Math_random : nat -> float) (nodeCount : nat)
| OnParams (newParams : SetStateAction OptimizationParams)
| OnOptimizeStart
| OnOptimizeResolve (response : OptimizationResponse) (elapsed : float)
| OnOptimizeThrow (e : JS.Error)
| OnInterval
| OnPlay
| OnSkip
| OnDismiss.

(** A control that is disabled, or not rendered, cannot act. *)
Definition when (guard : bool) (next : AppState) : option AppState :=
  if guard then Some next else None.

(** The controls of the panel are disabled while a request is pending; the
    start node is chosen among the nodes; the play and skip buttons are
    rendered only while a result is held; an answer arrives only for a
    pending request. *)
Definition act (load_random : nat -> float) (a : Action) (s : AppState)
    : option AppState :=
  let idle := negb (isOptimizing s) in
  let held := bool_decide (is_Some (result s)) in
  match a with
  | OnEffect Math_random nodeCount =>
      when idle (scenarioEffect load_random Math_random nodeCount s)
  | OnScenario Math_random nodeCount sc =>
      when idle (selectScenario load_random Math_random nodeCount sc s)
  | OnStartNode id =>
      when (idle && bool_decide (is_Some (find_node (nodes s) id)))
        (handleSetStartNodeId id s)
  | OnReset Math_random nodeCount =>
      when idle (handleResetNodes Math_random nodeCount s)
  | OnParams newParams => when idle (handleParamsChange newParams s)
  | OnOptimizeStart => when idle (optimizeStarted s)
  | OnOptimizeResolve response elapsed =>
      when (isOptimizing s) (optimizeResolved response elapsed s)
  | OnOptimizeThrow e => when (isOptimizing s) (optimizeThrew e s)
  | OnInterval => Some (period s)
  | OnPlay => when held (togglePlay s)
  | OnSkip => skipToEnd s
  | OnDismiss => when (bool_decide (is_Some (error s))) (dismissError s)
  end.

(** A sequence of actions, from left to right. *)
Fixpoint acts (load_random : nat -> float) (l : list Action) (s : AppState)
    : option AppState :=
  match l with
  | [] => Some s
  | a :: rest =>
      match act load_random a s with
      | Some next => acts load_random rest next
      | None => None
      end
  end.

(** The responses that a sequence of actions delivers. *)
Definition delivered (l : list Action) : list OptimizationResponse :=
  omap (fun a => match a with
                 | OnOptimizeResolve response _ => Some response
                 | _ => None
                 end) l.

(** What every reachable state satisfies. *)
Definition well_formed (s : AppState) : Prop :=
  Node.id <$> nodes s = ids_upto (List.length (nodes s))
  /\ (nodes s <> [] -> is_Some (find_node (nodes s) (startNodeId s)))
  /\ (result s = None -> playbackIndex s = -1)
  /\ (isOptimizing s = true -> result s = None /\ error s = None).

(** The cursor is an index of the iterations of the held result. *)
Definition cursor_in_range (s : AppState) : Prop :=
  forall r, result s = Some r ->
    0 <= playbackIndex s < JS.length (iterations r).

(** * Properties *)

(** ** Lists, rotations and the indexed reduction *)

Section Rotation.

Context {A : Type}.
Implicit Types l : list A.

Lemma lookup_successor l i :
  (i < length l)%nat ->
  l !! ((i + 1) mod length l)%nat = rotate 1 l !! i.
Proof.
  intros Hi. rewrite lookup_rotate_r by done. f_equal.
  unfold rotate_nat_add.
  rewrite <- Nat2Z.inj_add, <- Nat2Z.inj_mod, Nat2Z.id.
  f_equal. lia.
Qed.

Lemma rotate_nat_add_comm n m i len :
  (0 < len)%nat ->
  rotate_nat_add n (rotate_nat_add m i len) len
  = rotate_nat_add m (rotate_nat_add n i len) len.
Proof.
  intros Hlen. unfold rotate_nat_add.
  rewrite !Z2Nat.id by (apply Z.mod_pos; lia).
  rewrite !Zplus_mod_idemp_r. f_equal. f_equal. lia.
Qed.

Lemma rotate_rotate_comm n m l :
  rotate n (rotate m l) = rotate m (rotate n l).
Proof.
  apply list_eq. intros i.
  destruct (decide (i < length l)%nat) as [Hi|Hi].
  - assert (0 < length l)%nat by lia.
    rewrite !lookup_rotate_r; rewrite ?length_rotate;
      auto using rotate_nat_add_lt.
    by rewrite rotate_nat_add_comm.
  - rewrite !lookup_ge_None_2; rewrite ?length_rotate; auto with lia.
Qed.

Lemma rotate_zip {B} n l (k : list B) :
  length l = length k ->
  zip (rotate n l) (rotate n k) = rotate n (zip l k).
Proof.
  intros Hlen. unfold rotate.
  rewrite length_zip_with, <- Hlen, Nat.min_id.
  rewrite zip_with_app by (rewrite !length_drop; lia).
  by rewrite zip_with_drop, zip_with_take.
Qed.

Lemma rotate_fmap {B} (f : A -> B) n l :
  f <$> rotate n l = rotate n (f <$> l).
Proof.
  unfold rotate. by rewrite fmap_app, fmap_drop, fmap_take, length_fmap.
Qed.

Lemma closed_pairs_rotate n l :
  closed_pairs (rotate n l) = rotate n (closed_pairs l).
Proof.
  unfold closed_pairs.
  rewrite rotate_rotate_comm, rotate_zip; [done|by rewrite length_rotate].
Qed.

Lemma length_closed_pairs l : length (closed_pairs l) = length l.
Proof.
  unfold closed_pairs. rewrite length_zip_with, length_rotate. lia.
Qed.

End Rotation.

Lemma Forall2_zip_pair {A B C D} (P : A -> C -> Prop) (Q : B -> D -> Prop)
    (l1 : list A) (l2 : list B) (k1 : list C) (k2 : list D) :
  Forall2 P l1 k1 -> Forall2 Q l2 k2 ->
  Forall2 (fun p q => P p.1 q.1 /\ Q p.2 q.2) (zip l1 l2) (zip k1 k2).
Proof.
  intros HP. revert l2 k2.
  induction HP as [|a c l1 k1 Hac _ IH]; intros l2 k2 HQ; simpl.
  - constructor.
  - destruct HQ as [|b d l2 k2 Hbd HQ]; constructor; auto.
Qed.

(** ** The route distance of the metrics panel *)

Section RouteDistance.

Variable nodes : list Node.t.

(** The callback of the reduction adds the leg that starts at its index. *)
Lemma reduce_from_legs (routeIds l : list Z) (i : nat) (acc : float) :
  drop i routeIds = l ->
  JS.reduce_from (fun total id index =>
      let nextId := routeIds !! ((index + 1) mod List.length routeIds)%nat in
      let n1 := find_node nodes id in
      let n2 := nextId ≫= find_node nodes in
      match n1, n2 with
      | Some n1, Some n2 =>
          let dist :=
            PrimFloat.sqrt (JS.square (Node.x n1 - Node.x n2)
                            + JS.square (Node.y n1 - Node.y n2))%float in
          (total + dist)%float
      | _, _ => total
      end) l i acc
  = foldl add_leg acc (leg nodes <$> zip l (drop i (rotate 1 routeIds))).
Proof.
  revert i acc. induction l as [|a l IH]; intros i acc Hdrop; [done|].
  assert (routeIds !! i = Some a) as Ha.
  { pose proof (lookup_drop routeIds i 0) as E.
    rewrite Hdrop, Nat.add_0_r in E. done. }
  assert (i < length routeIds)%nat as Hi by eauto using lookup_lt_Some.
  assert (drop (S i) routeIds = l) as Hl.
  { replace (S i) with (i + 1)%nat by lia.
    by rewrite <- drop_drop, Hdrop. }
  destruct (lookup_lt_is_Some_2 (rotate 1 routeIds) i) as [b Hb].
  { by rewrite length_rotate. }
  rewrite (drop_S _ b i) by done.
  cbn [JS.reduce_from zip_with fmap list_fmap foldl].
  rewrite IH by done. f_equal.
  rewrite lookup_successor, Hb by done.
  unfold leg, calculateDistance; cbn.
  destruct (find_node nodes a), (find_node nodes b); reflexivity.
Qed.

Lemma total_of_unresolved (ps : list (Z * Z)) (acc : float) :
  nodes = [] -> foldl add_leg acc (leg nodes <$> ps) = acc.
Proof.
  intros ->. revert acc. induction ps as [|p ps IH]; intros acc; [done|].
  cbn. apply IH.
Qed.

(** The panel's helper adds up the legs of the closed tour in route order;
    routes of fewer than two entries have distance 0. *)
Lemma calculateRouteDistance_legs (routeIds : list Z) :
  calculateRouteDistance nodes routeIds
  = if JS.length routeIds <? 2 then 0%float
    else total_of (legs nodes routeIds).
Proof.
  unfold calculateRouteDistance, total_of, legs, closed_pairs.
  destruct (JS.length routeIds <? 2); [done|].
  destruct (JS.length nodes =? 0) eqn:Hn; cbn [orb].
  - rewrite total_of_unresolved; [done|].
    apply Z.eqb_eq in Hn. unfold JS.length in Hn.
    apply length_zero_iff_nil. lia.
  - exact (reduce_from_legs routeIds routeIds 0 0%float eq_refl).
Qed.

(** When every id resolves, the legs are the distances between the
    looked-up nodes of consecutive entries. *)
Lemma legs_resolved (routeIds : list Z) (tour : list Node.t) (acc : float) :
  mapM (find_node nodes) routeIds = Some tour ->
  foldl add_leg acc (legs nodes routeIds)
  = foldl (fun total p => (total + calculateDistance p.1 p.2)%float) acc
      (closed_pairs tour).
Proof.
  intros Hres%mapM_Some.
  assert (Forall2 (fun p q => find_node nodes p.1 = Some q.1
                              /\ find_node nodes p.2 = Some q.2)
            (closed_pairs routeIds) (closed_pairs tour)) as Hpairs.
  { apply (Forall2_zip_pair (fun id n => find_node nodes id = Some n)
             (fun id n => find_node nodes id = Some n)); [done|].
    by apply Forall2_rotate. }
  unfold legs. revert acc.
  induction Hpairs as [|p q ps qs [H1 H2] _ IH]; intros acc; [done|].
  cbn. rewrite <- IH. f_equal. unfold leg. by rewrite H1, H2.
Qed.

End RouteDistance.

(** Two floats that a comparison tells apart are different. *)
Ltac float_neq :=
  let H := fresh in
  intro H;
  match type of H with
  | ?a = ?b =>
      apply (f_equal (fun v => PrimFloat.eqb v b)) in H;
      vm_compute in H; discriminate H
  end.

(** C3, as stated, fails: in the route 0, 1, 99 over [two_stops] the id 99
    resolves to no node, the specification's wording gives distance 0, and
    the helper still returns the length 10 of the one leg whose two ends
    resolve. *)
Lemma routeDistance_unresolved_id_not_zero :
  find_node two_stops 99 = None
  /\ Spec.routeDistance two_stops [0; 1; 99] = 0%float
  /\ calculateRouteDistance two_stops [0; 1; 99] = 10%float
  /\ calculateRouteDistance two_stops [0; 1; 99]
     <> Spec.routeDistance two_stops [0; 1; 99].
Proof.
  split; [reflexivity|].
  split; [vm_compute; reflexivity|].
  split; [vm_compute; reflexivity|].
  float_neq.
Qed.

(** C3, amended: for every node set and route, [calculateRouteDistance] is
    0 when the route has fewer than two entries, and otherwise the
    left-to-right sum, over the consecutive pairs of the route (the last
    entry paired with the first), of the Euclidean distance between the two
    looked-up nodes, a pair with an unresolved end adding nothing; when
    every id of the route resolves this is the closed-tour length of the
    specification. *)
Theorem calculateRouteDistance_closed_tour
    (nodes : list Node.t) (routeIds : list Z) :
  calculateRouteDistance nodes routeIds
  = (if JS.length routeIds <? 2 then 0%float
     else total_of (legs nodes routeIds))
  /\ (forall tour, mapM (find_node nodes) routeIds = Some tour ->
      calculateRouteDistance nodes routeIds
      = Spec.routeDistance nodes routeIds).
Proof.
  split; [apply calculateRouteDistance_legs|].
  intros tour Htour. rewrite calculateRouteDistance_legs.
  unfold Spec.routeDistance, total_of. rewrite Htour.
  destruct (JS.length routeIds <? 2); [done|].
  by apply legs_resolved.
Qed.

(** The closed tour of the specification over three resolved stops of the
    India scenario. *)
Example calculateRouteDistance_closed_tour_india :
  is_Some (mapM (find_node india_nodes) [0; 1; 5])
  /\ calculateRouteDistance india_nodes [0; 1; 5]
     = Spec.routeDistance india_nodes [0; 1; 5].
Proof.
  split; [vm_compute; eauto|].
  eapply (proj2 (calculateRouteDistance_closed_tour india_nodes [0; 1; 5])).
  vm_compute. reflexivity.
Defined.

(** C9, as stated, fails: every id of the route 0, 1, 5 resolves in the
    India scenario, and rotating the route by one changes the total in its
    last binary digit, because the same three leg lengths are added in a
    different order. *)
Lemma calculateRouteDistance_rotation_differs :
  is_Some (mapM (find_node india_nodes) [0; 1; 5])
  /\ rotate 1 [0; 1; 5] = [1; 5; 0]
  /\ calculateRouteDistance india_nodes [0; 1; 5] = 133.75030772703931%float
  /\ calculateRouteDistance india_nodes [1; 5; 0] = 133.75030772703929%float
  /\ calculateRouteDistance india_nodes (rotate 1 [0; 1; 5])
     <> calculateRouteDistance india_nodes [0; 1; 5].
Proof.
  split; [vm_compute; eauto|].
  split; [reflexivity|].
  split; [vm_compute; reflexivity|].
  split; [vm_compute; reflexivity|].
  float_neq.
Qed.

(** C9, amended: for every node set, route and rotation, the legs of the
    rotated route are the legs of the original route in rotated order, and
    each total is the left-to-right floating-point sum of its legs; the two
    totals add the same leg lengths and can differ only by the rounding of
    the additions. *)
Theorem calculateRouteDistance_rotate
    (nodes : list Node.t) (routeIds : list Z) (k : nat) :
  legs nodes (rotate k routeIds) = rotate k (legs nodes routeIds)
  /\ legs nodes (rotate k routeIds) ≡ₚ legs nodes routeIds
  /\ calculateRouteDistance nodes (rotate k routeIds)
     = (if JS.length routeIds <? 2 then 0%float
        else total_of (rotate k (legs nodes routeIds)))
  /\ calculateRouteDistance nodes routeIds
     = (if JS.length routeIds <? 2 then 0%float
        else total_of (legs nodes routeIds)).
Proof.
  assert (legs nodes (rotate k routeIds) = rotate k (legs nodes routeIds))
    as Hlegs.
  { unfold legs. by rewrite closed_pairs_rotate, rotate_fmap. }
  split; [done|]. split; [|split].
  - rewrite Hlegs. unfold rotate.
    rewrite Permutation_app_comm. by rewrite take_drop.
  - rewrite calculateRouteDistance_legs, Hlegs.
    unfold JS.length. by rewrite length_rotate.
  - apply calculateRouteDistance_legs.
Qed.

(** ** The service call *)

Section Service.

Variable h : Host.
Variables (nodes : list Node.t) (params : OptimizationParams).
Variables (startNodeId : Z) (context : option string).

(** A missing credential throws before anything is logged. *)
Lemma runOptimization_no_key (log : list Event) :
  JS.truthy (API_KEY h) = false ->
  runOptimization h nodes params startNodeId context log
  = (log, inl "API Key is missing. Please set REACT_APP_GEMINI_API_KEY."%string).
Proof.
  unfold runOptimization. by destruct (API_KEY h) as [[|]|].
Qed.

(** With a credential, a non-empty response text that parses is returned
    as it is. *)
Lemma runOptimization_parsed (apiKey text : string) (r : OptimizationResponse) :
  API_KEY h = Some apiKey -> apiKey <> EmptyString ->
  generateContent h apiKey
    (optimizationRequest h nodes params startNodeId context)
  = inr (Some text) ->
  text <> EmptyString ->
  JSON_parse h text = inr r ->
  run (runOptimization h nodes params startNodeId context)
  = ([ NewGoogleGenAI apiKey;
       GenerateContent apiKey
         (optimizationRequest h nodes params startNodeId context) ],
     inr r).
Proof.
  intros Hkey Hne Hanswer Htext Hparse.
  unfold run, runOptimization. rewrite Hkey.
  destruct apiKey; [done|].
  unfold await, try_catch, emit, settle; cbn.
  rewrite Hanswer. destruct text; [done|]. by rewrite Hparse.
Qed.

(** The outcome of the call in every case: the errors are the missing
    credential, the rejection of the request, the absent or empty text and
    the failure of [JSON.parse]; otherwise the parsed value is returned. *)
Lemma runOptimization_outcome :
  (run (runOptimization h nodes params startNodeId context)).2
  = match API_KEY h with
    | None | Some EmptyString =>
        inl "API Key is missing. Please set REACT_APP_GEMINI_API_KEY."%string
    | Some apiKey =>
        match generateContent h apiKey
                (optimizationRequest h nodes params startNodeId context) with
        | inl rejection => inl rejection
        | inr None | inr (Some EmptyString) =>
            inl "No response from optimization engine."%string
        | inr (Some text) => JSON_parse h text
        end
    end.
Proof.
  unfold run, runOptimization.
  destruct (API_KEY h) as [[|c apiKey]|]; [done| |done].
  unfold await, try_catch, emit, settle, throw; cbn.
  destruct (generateContent h _ _) as [rejection|[[|c' text]|]]; try done.
  by destruct (JSON_parse h _).
Qed.

End Service.

(** C8: when the API key is absent from the environment (undefined, or the
    empty string), [runOptimization] throws the missing-key error for every
    input, and its log of effects is empty: the client is not constructed
    and no request is sent, so the external collaborator is invoked zero
    times. *)
Theorem runOptimization_missing_credential
    (h : Host) (nodes : list Node.t) (params : OptimizationParams)
    (startNodeId : Z) (context : option string) :
  JS.truthy (API_KEY h) = false ->
  run (runOptimization h nodes params startNodeId context)
  = ([], inl "API Key is missing. Please set REACT_APP_GEMINI_API_KEY."%string)
  /\ collaborator_calls
       (run (runOptimization h nodes params startNodeId context)).1 = 0%nat.
Proof.
  intros Hkey. unfold run. by rewrite runOptimization_no_key.
Qed.

Lemma runOptimization_missing_credential_witness :
  JS.truthy (API_KEY host_no_key) = false
  /\ run (runOptimization host_no_key two_stops (params initialState) 0 None)
     = ([], inl "API Key is missing. Please set REACT_APP_GEMINI_API_KEY."%string)
  /\ collaborator_calls
       (run (runOptimization host_no_key two_stops (params initialState)
               0 None)).1 = 0%nat.
Proof.
  split; [reflexivity|].
  apply (runOptimization_missing_credential host_no_key two_stops
           (params initialState) 0 None).
  reflexivity.
Defined.

(** C2, as stated, fails: the model answers with parseable JSON whose
    iterations array is empty, and [runOptimization] resolves with that
    response instead of throwing. *)
Lemma runOptimization_empty_iterations_resolves :
  generateContent host_no_frames "secret"
    (optimizationRequest host_no_frames two_stops (params initialState) 0 None)
  = inr (Some no_frames_text)
  /\ JSON_parse host_no_frames no_frames_text = inr no_frames
  /\ iterations no_frames = []
  /\ (run (runOptimization host_no_frames two_stops (params initialState)
             0 None)).2 = inr no_frames
  /\ ~ (exists e,
         (run (runOptimization host_no_frames two_stops (params initialState)
                 0 None)).2 = inl e).
Proof.
  split; [reflexivity|]. split; [reflexivity|]. split; [reflexivity|].
  split; [reflexivity|]. intros [e He]. vm_compute in He. discriminate He.
Qed.

(** C2, amended: when the credential is present and the model returns a
    non-empty text that [JSON.parse] accepts, [runOptimization] resolves
    with the parsed response as it is, whatever its iterations array holds,
    in particular when that array is empty; the response is not validated.
    The call throws only for a missing credential, a rejected request, an
    absent or empty response text, or a failure of [JSON.parse]. *)
Theorem runOptimization_returns_parsed
    (h : Host) (nodes : list Node.t) (params : OptimizationParams)
    (startNodeId : Z) (context : option string) :
  (forall apiKey text r,
     API_KEY h = Some apiKey -> apiKey <> EmptyString ->
     generateContent h apiKey
       (optimizationRequest h nodes params startNodeId context)
     = inr (Some text) ->
     text <> EmptyString ->
     JSON_parse h text = inr r ->
     (run (runOptimization h nodes params startNodeId context)).2 = inr r)
  /\ (forall e,
       (run (runOptimization h nodes params startNodeId context)).2 = inl e ->
       JS.truthy (API_KEY h) = false
       \/ exists apiKey,
            API_KEY h = Some apiKey
            /\ (generateContent h apiKey
                  (optimizationRequest h nodes params startNodeId context)
                = inl e
                \/ (exists text,
                      generateContent h apiKey
                        (optimizationRequest h nodes params startNodeId
                           context) = inr text
                      /\ JS.truthy text = false)
                \/ (exists text,
                      generateContent h apiKey
                        (optimizationRequest h nodes params startNodeId
                           context) = inr (Some text)
                      /\ JSON_parse h text = inl e))).
Proof.
  split.
  - intros apiKey text r Hkey Hne Hanswer Htext Hparse.
    by erewrite runOptimization_parsed.
  - intros e. rewrite runOptimization_outcome.
    destruct (API_KEY h) as [[|c apiKey]|]; [by left| |by left].
    intros He. right. eexists. split; [done|].
    destruct (generateContent h _ _) as [rejection|[[|c' text]|]].
    + left. congruence.
    + right. left. by eexists.
    + right. right. by eexists.
    + right. left. by eexists.
Qed.

Lemma runOptimization_returns_parsed_witness :
  iterations no_frames = []
  /\ (run (runOptimization host_no_frames two_stops (params initialState)
             0 None)).2 = inr no_frames.
Proof.
  split; [reflexivity|].
  apply (proj1 (runOptimization_returns_parsed host_no_frames two_stops
                  (params initialState) 0 None)
           "secret"%string no_frames_text no_frames);
    first [reflexivity | discriminate].
Defined.

(** ** The playback controller *)

Section Playback.

Variable r : OptimizationResponse.

Let last_index : Z := JS.length (iterations r) - 1.

Lemma tick_advances (s : AppState) :
  result s = Some r -> playbackIndex s < last_index ->
  tick s = with_cursor (playbackIndex s + 1) s.
Proof.
  intros Hr Hlt. unfold tick. rewrite Hr.
  fold last_index. rewrite Z.geb_leb.
  destruct (Z.leb_spec last_index (playbackIndex s)); [lia|].
  unfold with_cursor. by rewrite Hr.
Qed.

Lemma tick_stops (s : AppState) :
  result s = Some r -> last_index <= playbackIndex s ->
  tick s = with_playing false s.
Proof.
  intros Hr Hge. unfold tick. rewrite Hr. fold last_index.
  rewrite Z.geb_leb.
  destruct (Z.leb_spec last_index (playbackIndex s)); [|lia].
  unfold with_playing. by rewrite Hr.
Qed.

Lemma period_idle (s : AppState) :
  isPlaying s = false -> period s = s.
Proof. intros Hp. unfold period, intervalInstalled. by rewrite Hp. Qed.

Lemma period_playing (s : AppState) :
  result s = Some r -> isPlaying s = true -> period s = tick s.
Proof.
  intros Hr Hp. unfold period, intervalInstalled. rewrite Hp, Hr.
  by rewrite bool_decide_eq_true_2.
Qed.

Lemma periods_S (n : nat) (s : AppState) :
  periods (S n) s = period (periods n s).
Proof. reflexivity. Qed.

(** While frames remain, [k] periods move the cursor forward by [k] and
    change nothing else. *)
Lemma periods_advance (k : nat) (s : AppState) :
  result s = Some r -> isPlaying s = true ->
  playbackIndex s + Z.of_nat k <= last_index ->
  periods k s = with_cursor (playbackIndex s + Z.of_nat k) s.
Proof.
  intros Hr Hp. induction k as [|k IH]; intros Hk.
  - cbn. rewrite Z.add_0_r. by destruct s.
  - rewrite periods_S, IH by lia.
    rewrite period_playing, tick_advances by (done || cbn; lia).
    unfold with_cursor; cbn. f_equal. lia.
Qed.

(** The cursor never decreases and never passes the last index. *)
Lemma period_bounds (s : AppState) :
  result s = Some r -> playbackIndex s <= last_index ->
  result (period s) = Some r
  /\ playbackIndex s <= playbackIndex (period s) <= last_index.
Proof.
  intros Hr Hle. destruct (isPlaying s) eqn:Hp.
  - rewrite period_playing by done.
    destruct (decide (playbackIndex s < last_index)).
    + rewrite tick_advances by done. cbn. split; [done|lia].
    + rewrite tick_stops by (done || lia). cbn. split; [done|lia].
  - rewrite period_idle by done. split; [done|lia].
Qed.

Lemma periods_bounds (n : nat) (s : AppState) :
  result s = Some r -> playbackIndex s <= last_index ->
  result (periods n s) = Some r
  /\ playbackIndex s <= playbackIndex (periods n s) <= last_index.
Proof.
  intros Hr Hle. induction n as [|n [IHr IHc]].
  - cbn. split; [done|lia].
  - rewrite periods_S.
    destruct (period_bounds (periods n s)) as [Hr' Hc']; [done|lia|].
    split; [done|lia].
Qed.

(** Once the cursor is at the last index, one more period clears the play
    flag, and from then on nothing changes. *)
Lemma periods_stopped (n : nat) (s : AppState) :
  isPlaying s = false -> periods n s = s.
Proof.
  intros Hp. induction n as [|n IH]; [done|].
  by rewrite periods_S, IH, period_idle.
Qed.

End Playback.

(** C4: from the Ready state (result present, cursor at index 0, playing)
    of a result with at least one frame, each of the first length-1 periods
    advances the cursor by exactly one, so that after exactly length-1 of
    them the cursor is at the last index (Finished); a tick in a Finished
    state leaves the cursor where it is and clears the play flag, which
    uninstalls the interval; the cursor never passes the last index. *)
Theorem playback_reaches_last_frame (s : AppState) (r : OptimizationResponse) :
  Ready s r -> iterations r <> [] ->
  Finished (periods (List.length (iterations r) - 1) s) r
  /\ (forall k, (k <= List.length (iterations r) - 1)%nat ->
        playbackIndex (periods k s) = Z.of_nat k
        /\ isPlaying (periods k s) = true)
  /\ (forall s', Finished s' r ->
        playbackIndex (tick s') = playbackIndex s'
        /\ isPlaying (tick s') = false
        /\ intervalInstalled (tick s') = false)
  /\ (forall m, playbackIndex (periods m s) <= JS.length (iterations r) - 1)
  /\ (forall m, (List.length (iterations r) <= m)%nat ->
        periods m s
        = with_playing false
            (with_cursor (JS.length (iterations r) - 1) s)).
Proof.
  intros (Hr & Hc & Hp) Hne.
  assert (0 < List.length (iterations r))%nat as Hlen.
  { destruct (iterations r); [done|cbn; lia]. }
  assert (forall k, (k <= List.length (iterations r) - 1)%nat ->
            periods k s = with_cursor (Z.of_nat k) s) as Hadv.
  { intros k Hk. rewrite (periods_advance r) by (done || unfold JS.length; lia).
    by rewrite Hc. }
  assert (JS.length (iterations r) - 1
          = Z.of_nat (List.length (iterations r) - 1)) as Hlast.
  { unfold JS.length. lia. }
  split; [|split; [|split; [|split]]].
  - rewrite Hadv by lia. split; [done|]. cbn. lia.
  - intros k Hk. rewrite Hadv by done. by cbn.
  - intros s' [Hr' Hc'].
    rewrite (tick_stops r) by (done || lia).
    unfold intervalInstalled. by cbn.
  - intros m. destruct (periods_bounds r m s) as [_ ?]; [done| |lia].
    rewrite Hc. unfold JS.length. lia.
  - intros m Hm.
    replace m with ((m - List.length (iterations r))
                    + S (List.length (iterations r) - 1))%nat by lia.
    unfold periods at 1. rewrite Nat.iter_add.
    fold (periods (S (List.length (iterations r) - 1)) s).
    fold (periods (m - List.length (iterations r))
            (periods (S (List.length (iterations r) - 1)) s)).
    rewrite periods_S, Hadv by lia.
    rewrite (period_playing r), (tick_stops r) by (done || cbn; lia).
    rewrite periods_stopped by done. by rewrite Hlast.
Qed.

Lemma playback_reaches_last_frame_witness :
  Ready ready_two_frames two_frames
  /\ iterations two_frames <> []
  /\ Finished (periods 1 ready_two_frames) two_frames.
Proof.
  assert (Ready ready_two_frames two_frames) as Hready by (by repeat split).
  assert (iterations two_frames <> []) as Hne by discriminate.
  split; [done|]. split; [done|].
  exact (proj1 (playback_reaches_last_frame ready_two_frames two_frames
                  Hready Hne)).
Defined.

(** C5: in every Finished state (result present, cursor at the last index)
    the play button puts the cursor back at 0 and sets the play flag,
    whatever the flag was, and changes nothing else. *)
Theorem togglePlay_restarts_when_finished (s : AppState) (r : OptimizationResponse) :
  Finished s r ->
  playbackIndex (togglePlay s) = 0
  /\ isPlaying (togglePlay s) = true
  /\ togglePlay s = with_playing true (with_cursor 0 s).
Proof.
  intros [Hr Hc].
  assert (togglePlay s = with_playing true (with_cursor 0 s)) as ->.
  { unfold togglePlay. rewrite Hr, Hc, Z.geb_leb, Z.leb_refl.
    unfold with_playing, with_cursor; cbn. by rewrite Hr. }
  done.
Qed.

Lemma togglePlay_restarts_when_finished_witness :
  Finished showing_two_frames two_frames
  /\ playbackIndex (togglePlay showing_two_frames) = 0
  /\ isPlaying (togglePlay showing_two_frames) = true.
Proof.
  assert (Finished showing_two_frames two_frames) as Hfin by (by split).
  split; [done|].
  destruct (togglePlay_restarts_when_finished showing_two_frames two_frames
              Hfin) as (Hc & Hp & _).
  by split.
Defined.

(** The play button of the earlier revision only flips the flag: in a
    Finished state the cursor stays at the last index. *)
Lemma Earlier_togglePlay_keeps_cursor (s : AppState) :
  playbackIndex (Earlier.togglePlay s) = playbackIndex s
  /\ isPlaying (Earlier.togglePlay s) = negb (isPlaying s).
Proof. done. Qed.

(** ** Scenario switches *)

Lemma generateNodes_ids (Math_random : nat -> float) (count : nat) :
  Node.id <$> generateNodes Math_random count = ids_upto count
  /\ List.length (generateNodes Math_random count) = count.
Proof.
  unfold generateNodes, JS.Array_from, ids_upto. split.
  - rewrite <- list_fmap_compose. by apply list_fmap_ext.
  - by rewrite length_map, length_seq.
Qed.

Lemma delivery_nodes_ids (Math_random : nat -> float) :
  Node.id <$> delivery_nodes Math_random = ids_upto 20.
Proof.
  unfold delivery_nodes, JS.Array_from, ids_upto.
  rewrite <- list_fmap_compose. by apply list_fmap_ext.
Qed.

(** The node set that a scenario yields has the ids 0 to N-1 in order. *)
Lemma scenarioEffect_ids (load_random Math_random : nat -> float)
    (nodeCount : nat) (prev : AppState) :
  Node.id <$> nodes (scenarioEffect load_random Math_random nodeCount prev)
  = ids_upto
      (List.length
         (nodes (scenarioEffect load_random Math_random nodeCount prev))).
Proof.
  unfold scenarioEffect. destruct (scenario prev); cbn [nodes SCENARIOS
    ScenarioConfig.fixedNodes ScenarioConfig.nodes].
  - destruct (generateNodes_ids Math_random nodeCount) as [-> ->]. done.
  - reflexivity.
  - reflexivity.
  - rewrite delivery_nodes_ids. unfold delivery_nodes, JS.Array_from.
    by rewrite length_map, length_seq.
  - reflexivity.
Qed.

(** Selecting the scenario that is already selected changes nothing. *)
Lemma selectScenario_same (load_random Math_random : nat -> float)
    (nodeCount : nat) (prev : AppState) :
  selectScenario load_random Math_random nodeCount (scenario prev) prev = prev.
Proof.
  unfold selectScenario. cbn. rewrite decide_True by done. by destruct prev.
Qed.

(** C6: after a switch to any of the scenarios (a selection that differs
    from the current one), from any state and for any node count and
    random draws, the ids of the resulting node set are exactly
    0, 1, ..., N-1 in order (N the size of the set), every one of these ids
    resolves, the start node id is 0, and the result and the playback
    cursor are cleared. *)
Theorem selectScenario_resets (load_random Math_random : nat -> float)
    (nodeCount : nat) (sc : ScenarioType) (prev : AppState) :
  sc <> scenario prev ->
  let next := selectScenario load_random Math_random nodeCount sc prev in
  scenario next = sc
  /\ Node.id <$> nodes next = ids_upto (List.length (nodes next))
  /\ (forall i : Z, 0 <= i < JS.length (nodes next) ->
        exists n, find_node (nodes next) i = Some n /\ Node.id n = i)
  /\ startNodeId next = 0
  /\ result next = None
  /\ playbackIndex next = -1
  /\ isPlaying next = false.
Proof.
  intros Hswitch. cbv zeta. unfold selectScenario.
  cbn [scenario handleSetScenario]. rewrite decide_False by done.
  split; [done|]. split; [apply scenarioEffect_ids|].
  split; [|done].
  intros i Hi.
  pose proof (scenarioEffect_ids load_random Math_random nodeCount
                (handleSetScenario sc prev)) as Hids.
  set (ns := nodes _) in *. clearbody ns.
  destruct (find_node ns i) as [n|] eqn:Hfind.
  - exists n. split; [done|].
    apply find_some in Hfind as [_ Heq]. by apply Z.eqb_eq in Heq.
  - exfalso. unfold JS.length in Hi.
    assert (ids_upto (List.length ns) !! Z.to_nat i = Some i) as Hi'.
    { unfold ids_upto. rewrite list_lookup_fmap, lookup_seq_lt by lia.
      cbn. f_equal. lia. }
    rewrite <- Hids, list_lookup_fmap in Hi'.
    destruct (ns !! Z.to_nat i) as [n|] eqn:Hn; [|done].
    apply list_elem_of_lookup_2, list_elem_of_In in Hn.
    eapply (find_none _ _ Hfind) in Hn.
    cbn in Hi'. injection Hi' as Hid. rewrite Hid, Z.eqb_refl in Hn. done.
Qed.

Lemma selectScenario_resets_witness :
  india <> scenario showing_two_frames
  /\ Node.id <$> nodes (selectScenario (fun _ => 0%float) (fun _ => 0%float)
                          15 india showing_two_frames)
     = ids_upto 16
  /\ startNodeId (selectScenario (fun _ => 0%float) (fun _ => 0%float)
                    15 india showing_two_frames) = 0
  /\ result (selectScenario (fun _ => 0%float) (fun _ => 0%float)
               15 india showing_two_frames) = None.
Proof.
  assert (india <> scenario showing_two_frames) as Hswitch by discriminate.
  split; [exact Hswitch|].
  destruct (selectScenario_resets (fun _ => 0%float) (fun _ => 0%float)
              15 india showing_two_frames Hswitch)
    as (_ & Hids & _ & Hstart & Hresult & _).
  split; [exact Hids|]. split; [exact Hstart|exact Hresult].
Defined.

(** ** Optimize requests *)

Section Optimize.

Variables (load_random : nat -> float) (h : Host) (startTime endTime : float).
Variable s : AppState.

Lemma handleOptimize_threw (e : JS.Error) :
  (awaited load_random h s).2 = inl e ->
  (handleOptimize load_random h startTime endTime s).2
  = optimizeThrew e (optimizeStarted s).
Proof.
  unfold handleOptimize. fold (awaited load_random h s).
  destruct (awaited load_random h s) as [log [e'|r]]; cbn; congruence.
Qed.

Lemma handleOptimize_resolved (r : OptimizationResponse) :
  (awaited load_random h s).2 = inr r ->
  (handleOptimize load_random h startTime endTime s).2
  = optimizeResolved r (endTime - startTime)%float (optimizeStarted s).
Proof.
  unfold handleOptimize. fold (awaited load_random h s).
  destruct (awaited load_random h s) as [log [e|r']]; cbn; congruence.
Qed.

End Optimize.

(** C1, as stated, fails: the session displays the last frame of a result,
    the request fails for want of a credential, and afterwards the result
    is gone and the cursor is back at -1. *)
Lemma handleOptimize_error_loses_result :
  result showing_two_frames = Some two_frames
  /\ playbackIndex showing_two_frames = 1
  /\ (awaited (fun _ => 0%float) host_no_key showing_two_frames).2
     = inl "API Key is missing. Please set REACT_APP_GEMINI_API_KEY."%string
  /\ result (handleOptimize (fun _ => 0%float) host_no_key 0 1
               showing_two_frames).2 = None
  /\ playbackIndex (handleOptimize (fun _ => 0%float) host_no_key 0 1
                      showing_two_frames).2 = -1
  /\ result (handleOptimize (fun _ => 0%float) host_no_key 0 1
               showing_two_frames).2
     <> result showing_two_frames.
Proof.
  split; [reflexivity|]. split; [reflexivity|]. split; [reflexivity|].
  split; [reflexivity|]. split; [reflexivity|]. discriminate.
Qed.

(** C1, amended: an optimize request that ends in an error, of whichever
    class, is terminal for that request only: the error message is
    recorded and the optimizing flag is cleared, while the node set, the
    parameters, the scenario, the start node and the play flag are as they
    were before the request.  The update that records the error leaves the
    result and the cursor of the state it is applied to untouched; the
    previously displayed result and its cursor are nevertheless gone,
    because the request cleared them when it started. *)
Theorem handleOptimize_error_is_terminal
    (load_random : nat -> float) (h : Host) (startTime endTime : float)
    (s : AppState) (e : JS.Error) :
  (awaited load_random h s).2 = inl e ->
  let next := (handleOptimize load_random h startTime endTime s).2 in
  error next = Some (JS.or_else e "An unexpected error occurred")
  /\ isOptimizing next = false
  /\ result next = None
  /\ playbackIndex next = -1
  /\ nodes next = nodes s
  /\ params next = params s
  /\ scenario next = scenario s
  /\ startNodeId next = startNodeId s
  /\ isPlaying next = isPlaying s
  /\ (forall prev,
        result (optimizeThrew e prev) = result prev
        /\ playbackIndex (optimizeThrew e prev) = playbackIndex prev).
Proof.
  intros He. cbv zeta.
  rewrite (handleOptimize_threw _ _ _ _ _ e He).
  repeat split.
Qed.

Lemma handleOptimize_error_is_terminal_witness :
  (awaited (fun _ => 0%float) host_no_key showing_two_frames).2
  = inl "API Key is missing. Please set REACT_APP_GEMINI_API_KEY."%string
  /\ error (handleOptimize (fun _ => 0%float) host_no_key 0 1
              showing_two_frames).2
     = Some "API Key is missing. Please set REACT_APP_GEMINI_API_KEY."%string
  /\ isOptimizing (handleOptimize (fun _ => 0%float) host_no_key 0 1
                     showing_two_frames).2 = false.
Proof.
  split; [reflexivity|].
  destruct (handleOptimize_error_is_terminal (fun _ => 0%float) host_no_key
              0 1 showing_two_frames
              "API Key is missing. Please set REACT_APP_GEMINI_API_KEY."%string
              eq_refl) as (Herr & Hopt & _).
  split; [exact Herr|exact Hopt].
Defined.

(** ** The derived statistics of the panel *)

Lemma at_last {A} (l : list A) : JS.at_ l (JS.length l - 1) = last l.
Proof.
  unfold JS.at_, JS.length. rewrite last_lookup.
  destruct l as [|a l]; [done|].
  destruct (Z.ltb_spec (Z.of_nat (List.length (a :: l)) - 1) 0) as [Hlt|_].
  - cbn [List.length] in Hlt. lia.
  - f_equal. cbn [List.length]. lia.
Qed.

Lemma at_first {A} (l : list A) : JS.at_ l 0 = head l.
Proof. by destruct l. Qed.

(** In a list sorted by [<=], no element exceeds the last one. *)
Lemma sorted_le_last (l : list Z) (x y : Z) :
  Sorted Z.le l -> x ∈ l -> last l = Some y -> x <= y.
Proof.
  intros Hs%Sorted_StronglySorted; [|intros ???; lia].
  induction Hs as [|a l Hs IH Hall]; intros Hin Hlast.
  - by apply elem_of_nil in Hin.
  - destruct l as [|b l].
    + apply list_elem_of_singleton in Hin. cbn in Hlast.
      injection Hlast as <-. lia.
    + assert (last (b :: l) = Some y) as Hlast' by done.
      apply elem_of_cons in Hin as [->|Hin]; [|by apply IH].
      rewrite Forall_forall in Hall. apply Hall.
      rewrite last_lookup in Hlast'.
      by eapply list_elem_of_lookup_2.
Qed.

(** With at least one frame the search for the convergence step succeeds. *)
Lemma convergenceStep_is_Some (data : OptimizationResponse) :
  iterations data <> [] -> is_Some (convergenceStep data).
Proof.
  intros Hne. unfold convergenceStep.
  destruct (List.find _ (iterations data)); [by eexists|].
  rewrite at_last. destruct (iterations data) as [|a l] using rev_ind; [done|].
  rewrite last_snoc. by eexists.
Qed.

(** C7: for every response with a non-empty iterations array whose step
    values are monotonically non-decreasing, [convergenceStep] is defined
    and does not exceed the step of the last frame. *)
Theorem convergenceStep_le_last_step (data : OptimizationResponse) :
  iterations data <> [] ->
  Sorted Z.le (step <$> iterations data) ->
  exists c final,
    convergenceStep data = Some c
    /\ last (iterations data) = Some final
    /\ c <= step final.
Proof.
  intros Hne Hsorted.
  destruct (last (iterations data)) as [final|] eqn:Hlast.
  2:{ apply last_None in Hlast. done. }
  assert (last (step <$> iterations data) = Some (step final)) as Hlast'.
  { by rewrite fmap_last, Hlast. }
  unfold convergenceStep.
  destruct (List.find _ (iterations data)) as [bestIter|] eqn:Hfind.
  - exists (step bestIter), final. split; [done|]. split; [done|].
    apply find_some in Hfind as [Hin _].
    eapply sorted_le_last; [done| |done].
    apply list_elem_of_fmap_2. by apply list_elem_of_In.
  - exists (step final), final. rewrite at_last, Hlast. by cbn.
Qed.

Lemma convergenceStep_le_last_step_witness :
  iterations two_frames <> []
  /\ Sorted Z.le (step <$> iterations two_frames)
  /\ exists c final,
       convergenceStep two_frames = Some c
       /\ last (iterations two_frames) = Some final
       /\ c <= step final.
Proof.
  assert (iterations two_frames <> []) as Hne by discriminate.
  assert (Sorted Z.le (step <$> iterations two_frames)) as Hsorted.
  { cbn. repeat constructor. lia. }
  split; [done|]. split; [done|].
  exact (convergenceStep_le_last_step two_frames Hne Hsorted).
Defined.

(** The derivation succeeds on a held result exactly when the frame under
    the cursor exists and the result has a first frame. *)
Lemma derive_is_Some (data : OptimizationResponse) (k : Z)
    (nodes : list Node.t) :
  is_Some (derive (Some data) k nodes)
  <-> is_Some (JS.at_ (iterations data) k).
Proof.
  unfold derive. split.
  - destruct (JS.at_ (iterations data) k); [by eexists|].
    cbn. by intros [? ?].
  - intros [frame Hframe].
    assert (iterations data <> []) as Hne.
    { intros Hnil. rewrite Hnil in Hframe. unfold JS.at_ in Hframe.
      by destruct (k <? 0). }
    destruct (convergenceStep_is_Some data Hne) as [c Hc].
    rewrite Hframe, Hc.
    destruct (iterations data) as [|first rest]; [done|].
    cbn. by eexists.
Qed.

(** C10: when the awaited call resolves, [handleOptimize] holds the
    response and sets the cursor to 0 and the play flag, whatever the
    response contains; the frame under the cursor exists, and the
    derivation of the metrics panel succeeds, exactly when the iterations
    array of the response is non-empty; for an empty array the lookup of
    the current frame gives nothing and the derivation fails. *)
Theorem handleOptimize_success_frame_access
    (load_random : nat -> float) (h : Host) (startTime endTime : float)
    (s : AppState) (r : OptimizationResponse) :
  (awaited load_random h s).2 = inr r ->
  let next := (handleOptimize load_random h startTime endTime s).2 in
  result next = Some r
  /\ playbackIndex next = 0
  /\ isPlaying next = true
  /\ (is_Some (JS.at_ (iterations r) (playbackIndex next))
      <-> iterations r <> [])
  /\ (is_Some (metricsOf next) <-> iterations r <> [])
  /\ (iterations r = [] ->
      metricsOf next = None /\ currentIteration next = None).
Proof.
  intros Hr. cbv zeta.
  rewrite (handleOptimize_resolved _ _ _ _ _ r Hr).
  unfold metricsOf, currentIteration. cbn [result playbackIndex isPlaying
    nodes optimizeResolved optimizeStarted].
  assert (is_Some (JS.at_ (iterations r) 0) <-> iterations r <> []) as Hat.
  { rewrite at_first. destruct (iterations r); cbn.
    - split; [by intros [? ?]|done].
    - split; [done|by eexists]. }
  split; [done|]. split; [done|]. split; [done|]. split; [done|].
  split; [by rewrite derive_is_Some|].
  intros Hnil. split.
  - apply eq_None_not_Some. rewrite derive_is_Some, Hat. by intros ?.
  - by rewrite Hnil.
Qed.

Lemma handleOptimize_success_frame_access_witness :
  (awaited (fun _ => 0%float) host_no_frames showing_two_frames).2
  = inr no_frames
  /\ iterations no_frames = []
  /\ playbackIndex (handleOptimize (fun _ => 0%float) host_no_frames 0 1
                      showing_two_frames).2 = 0
  /\ metricsOf (handleOptimize (fun _ => 0%float) host_no_frames 0 1
                  showing_two_frames).2 = None.
Proof.
  split; [reflexivity|]. split; [reflexivity|].
  destruct (handleOptimize_success_frame_access (fun _ => 0%float)
              host_no_frames 0 1 showing_two_frames no_frames eq_refl)
    as (_ & Hcursor & _ & _ & _ & Hempty).
  split; [exact Hcursor|]. exact (proj1 (Hempty eq_refl)).
Defined.

(** * Further properties *)

(** ** The session as a transition system *)

(** In a node set whose ids are 0 to N-1 in order, every id below N
    resolves, to the node at that position. *)
Lemma find_node_in_range (ns : list Node.t) (i : Z) :
  Node.id <$> ns = ids_upto (List.length ns) ->
  0 <= i < JS.length ns ->
  exists n, find_node ns i = Some n /\ ns !! Z.to_nat i = Some n.
Proof.
  intros Hids Hi. unfold JS.length in Hi.
  assert (forall j n, ns !! j = Some n -> Node.id n = Z.of_nat j) as Hpos.
  { intros j n Hn.
    assert ((Node.id <$> ns) !! j = Some (Node.id n)) as Hj
      by (by rewrite list_lookup_fmap, Hn).
    rewrite Hids in Hj. unfold ids_upto in Hj.
    rewrite list_lookup_fmap in Hj.
    destruct (seq 0 (List.length ns) !! j) as [m|] eqn:Hm; [|done].
    apply lookup_seq in Hm as [-> _]. cbn in Hj. congruence. }
  unfold find_node.
  destruct (List.find _ ns) as [n|] eqn:Hfind.
  - exists n. split; [done|].
    apply find_some in Hfind as [Hin Heq]. apply Z.eqb_eq in Heq.
    apply list_elem_of_In, list_elem_of_lookup in Hin as [j Hj].
    rewrite <- Heq, (Hpos j n Hj), Nat2Z.id. done.
  - exfalso.
    destruct (lookup_lt_is_Some_2 ns (Z.to_nat i)) as [n Hn]; [lia|].
    pose proof (Hpos _ _ Hn) as Hid.
    apply list_elem_of_lookup_2, list_elem_of_In in Hn.
    apply (find_none _ _ Hfind) in Hn. cbn in Hn.
    rewrite Hid, Z2Nat.id, Z.eqb_refl in Hn by lia. done.
Qed.

Lemma first_node_resolves (ns : list Node.t) :
  Node.id <$> ns = ids_upto (List.length ns) ->
  ns <> [] -> is_Some (find_node ns 0).
Proof.
  intros Hids Hne.
  destruct (find_node_in_range ns 0 Hids) as (n & Hn & _); [|by eexists].
  unfold JS.length. destruct ns; [done|cbn; lia].
Qed.

Section Transitions.

Variable load_random : nat -> float.

Lemma scenarioEffect_well_formed (Math_random : nat -> float) (nodeCount : nat)
    (s : AppState) :
  isOptimizing s = false ->
  well_formed (scenarioEffect load_random Math_random nodeCount s).
Proof.
  intros Hidle. split; [apply scenarioEffect_ids|].
  split; [|split; [done|]].
  - intros Hne. apply first_node_resolves; [apply scenarioEffect_ids|done].
  - cbn. congruence.
Qed.

Lemma handleResetNodes_well_formed (Math_random : nat -> float)
    (nodeCount : nat) (s : AppState) :
  isOptimizing s = false -> well_formed s ->
  well_formed (handleResetNodes Math_random nodeCount s).
Proof.
  intros Hidle Hwf. unfold handleResetNodes.
  destruct (scenario s); try done.
  destruct (generateNodes_ids Math_random nodeCount) as [Hids Hlen].
  split; [cbn; by rewrite Hids, Hlen|].
  split; [|split; [done|cbn; congruence]].
  intros Hne. apply first_node_resolves; [|done].
  cbn. by rewrite Hids, Hlen.
Qed.

Lemma period_frame (s : AppState) :
  nodes (period s) = nodes s /\ startNodeId (period s) = startNodeId s
  /\ result (period s) = result s /\ isOptimizing (period s) = isOptimizing s
  /\ error (period s) = error s /\ params (period s) = params s
  /\ scenario (period s) = scenario s.
Proof.
  unfold period, tick. destruct (intervalInstalled s); [|done].
  destruct (result s) as [r|] eqn:Hr; [|by rewrite Hr].
  by destruct (playbackIndex s >=? _).
Qed.

(** Every action keeps the state well formed. *)
Lemma act_well_formed (a : Action) (s next : AppState) :
  well_formed s -> act load_random a s = Some next -> well_formed next.
Proof.
  intros Hwf Hact. pose proof Hwf as (Hids & Hstart & Hnone & Hpending).
  destruct a; cbn in Hact; unfold when in Hact.
  - destruct (isOptimizing s) eqn:Hopt; [done|]. injection Hact as <-.
    by apply scenarioEffect_well_formed.
  - destruct (isOptimizing s) eqn:Hopt; [done|]. injection Hact as <-.
    unfold selectScenario. case_decide.
    + split; [done|]. split; [done|]. split; [done|]. cbn. congruence.
    + by apply scenarioEffect_well_formed.
  - destruct (isOptimizing s) eqn:Hopt; [done|]. cbn in Hact.
    case_bool_decide as Hfound; [|done]. injection Hact as <-.
    split; [done|]. split; [done|]. split; [done|]. cbn. congruence.
  - destruct (isOptimizing s) eqn:Hopt; [done|]. injection Hact as <-.
    by apply handleResetNodes_well_formed.
  - destruct (isOptimizing s) eqn:Hopt; [done|]. injection Hact as <-.
    split; [done|]. split; [done|]. split; [done|]. cbn. congruence.
  - destruct (isOptimizing s) eqn:Hopt; [done|]. injection Hact as <-.
    by repeat split.
  - destruct (isOptimizing s) eqn:Hopt; [|done]. injection Hact as <-.
    by repeat split.
  - destruct (isOptimizing s) eqn:Hopt; [|done]. injection Hact as <-.
    destruct (Hpending eq_refl) as [Hr He].
    split; [done|]. split; [done|]. split; [by auto|]. done.
  - injection Hact as <-.
    destruct (period_frame s) as (Hn & Hs & Hr & Ho & He & _).
    split; [by rewrite Hn|]. split; [by rewrite Hn, Hs|].
    split; [|by rewrite Ho, Hr, He].
    rewrite Hr. intros Hres. unfold period, tick.
    rewrite Hres. destruct (intervalInstalled s); by auto.
  - case_bool_decide as Hheld; [|done]. injection Hact as <-.
    destruct Hheld as [r Hr]. unfold togglePlay. rewrite Hr.
    assert (isOptimizing s = false) as Hidle.
    { destruct (isOptimizing s); [|done]. destruct (Hpending eq_refl). congruence. }
    destruct (playbackIndex s >=? _);
      (split; [done|]; split; [done|]; split; cbn; intros ?; congruence).
  - unfold skipToEnd in Hact. destruct (result s) as [r|] eqn:Hr; [|done].
    injection Hact as <-.
    split; [done|]. split; [done|]. split; [cbn; intros ?; congruence|].
    cbn. intros Hopt. destruct (Hpending Hopt). congruence.
  - case_bool_decide as Herr; [|done]. injection Hact as <-.
    split; [done|]. split; [done|]. split; [done|].
    intros Hopt. by destruct (Hpending Hopt).
Qed.

Lemma acts_well_formed (l : list Action) (s final : AppState) :
  well_formed s -> acts load_random l s = Some final -> well_formed final.
Proof.
  revert s. induction l as [|a l IH]; intros s Hwf Hacts; cbn in Hacts.
  - by injection Hacts as <-.
  - destruct (act load_random a s) as [next|] eqn:Hact; [|done].
    eauto using act_well_formed.
Qed.

End Transitions.

Lemma at_in_range {A} (l : list A) (k : Z) :
  is_Some (JS.at_ l k) <-> 0 <= k < JS.length l.
Proof.
  unfold JS.at_, JS.length. destruct (Z.ltb_spec k 0) as [Hneg|Hpos].
  - split; [by intros [? ?]|lia].
  - rewrite lookup_lt_is_Some. lia.
Qed.

Section Cursor.

Variable load_random : nat -> float.

(** An action keeps the cursor inside the frames of the held result, if
    the response it delivers, when it delivers one, has a frame. *)
Lemma act_cursor_in_range (a : Action) (s next : AppState) :
  Forall (fun r => iterations r <> []) (delivered [a]) ->
  cursor_in_range s -> act load_random a s = Some next ->
  cursor_in_range next.
Proof.
  intros Hdelivered Hs Hact r.
  destruct a; cbn in Hact; unfold when in Hact.
  - destruct (negb _); [|done]. by injection Hact as <-.
  - destruct (negb _); [|done]. injection Hact as <-.
    unfold selectScenario. case_decide; [apply Hs|done].
  - destruct (_ && _); [|done]. injection Hact as <-. apply Hs.
  - destruct (negb _); [|done]. injection Hact as <-.
    unfold handleResetNodes. destruct (scenario s); first [apply Hs|done].
  - destruct (negb _); [|done]. injection Hact as <-. apply Hs.
  - destruct (negb _); [|done]. by injection Hact as <-.
  - destruct (isOptimizing s); [|done]. injection Hact as <-.
    cbn. intros [= <-]. apply Forall_cons in Hdelivered as [Hne _].
    unfold JS.length. destruct (iterations response); [done|cbn; lia].
  - destruct (isOptimizing s); [|done]. injection Hact as <-. apply Hs.
  - injection Hact as <-. intros Hr.
    destruct (period_frame s) as (_ & _ & Hres & _).
    rewrite Hres in Hr. specialize (Hs r Hr).
    unfold period. destruct (intervalInstalled s); [|done].
    destruct (decide (playbackIndex s < JS.length (iterations r) - 1)).
    + rewrite (tick_advances r) by done. cbn. lia.
    + rewrite (tick_stops r) by (done || lia). done.
  - case_bool_decide; [|done]. injection Hact as <-.
    unfold togglePlay. destruct (result s) as [r'|] eqn:Hr'.
    + destruct (playbackIndex s >=? _); cbn; intros [= <-];
        specialize (Hs r' Hr'); lia.
    + by cbn.
  - unfold skipToEnd in Hact. destruct (result s) as [r'|] eqn:Hr'; [|done].
    injection Hact as <-. cbn. intros [= <-].
    specialize (Hs r' Hr'). lia.
  - case_bool_decide; [|done]. injection Hact as <-. apply Hs.
Qed.

Lemma acts_cursor_in_range (l : list Action) (s final : AppState) :
  Forall (fun r => iterations r <> []) (delivered l) ->
  cursor_in_range s -> acts load_random l s = Some final ->
  cursor_in_range final.
Proof.
  revert s. induction l as [|a l IH]; intros s Hdelivered Hs Hacts;
    cbn in Hacts.
  - by injection Hacts as <-.
  - destruct (act load_random a s) as [next|] eqn:Hact; [|done].
    change (a :: l) with ([a] ++ l) in Hdelivered.
    unfold delivered in Hdelivered. rewrite omap_app in Hdelivered.
    apply Forall_app in Hdelivered as [Ha Hl].
    eauto using act_cursor_in_range.
Qed.

End Cursor.

(** A session: the mount, a request that resolves with two frames, the
    playback to its end, and a restart. *)
Definition demo_session : list Action :=
  [ OnEffect (fun _ => 0%float) INITIAL_NODES_COUNT;
    OnStartNode 3;
    OnOptimizeStart;
    OnOptimizeResolve two_frames 1500;
    OnInterval; OnInterval; OnInterval;
    OnPlay; OnSkip ].

Definition demo_final : AppState :=
  default initialState (acts (fun _ => 0%float) demo_session initialState).

(** X1: in every state that a mounted session can reach from the initial
    state, whatever the random draws, the answers of the service and the
    order of the actions, the node ids are 0, 1, ..., N-1 in order; the
    selected start node resolves whenever the node set is not empty; the
    cursor is -1 whenever no result is held; and while a request is
    pending no result is held and no error is shown. *)
Theorem reachable_well_formed (load_random : nat -> float)
    (l : list Action) (s : AppState) :
  acts load_random l initialState = Some s -> well_formed s.
Proof.
  apply acts_well_formed. split; [done|]. split; [done|]. by split.
Qed.

Lemma reachable_well_formed_witness :
  acts (fun _ => 0%float) demo_session initialState = Some demo_final
  /\ well_formed demo_final.
Proof.
  assert (acts (fun _ => 0%float) demo_session initialState
          = Some demo_final) as Hrun by (vm_compute; reflexivity).
  split; [exact Hrun|].
  exact (reachable_well_formed (fun _ => 0%float) demo_session demo_final Hrun).
Defined.

(** X2: if every response that the service delivers has at least one
    frame, then in every reachable state the cursor is an index of the
    frames of the held result, the derivation of the metrics panel does not
    throw, and the visualizer has a current frame exactly when a result is
    held. *)
Theorem reachable_cursor_in_range (load_random : nat -> float)
    (l : list Action) (s : AppState) :
  Forall (fun r => iterations r <> []) (delivered l) ->
  acts load_random l initialState = Some s ->
  cursor_in_range s
  /\ is_Some (metricsOf s)
  /\ (is_Some (currentIteration s) <-> is_Some (result s)).
Proof.
  intros Hdelivered Hacts.
  assert (cursor_in_range s) as Hs.
  { eapply acts_cursor_in_range; [done| |done]. by intros r. }
  split; [done|]. unfold metricsOf, currentIteration.
  destruct (result s) as [r|] eqn:Hr.
  - specialize (Hs r Hr). split.
    + apply derive_is_Some, at_in_range. done.
    + destruct (Z.geb_spec (playbackIndex s) 0) as [_|?]; [|lia].
      split; [by eexists|]. intros _. by apply at_in_range.
  - split; [by eexists|]. split; by intros [? ?].
Qed.

Lemma reachable_cursor_in_range_witness :
  Forall (fun r => iterations r <> []) (delivered demo_session)
  /\ acts (fun _ => 0%float) demo_session initialState = Some demo_final
  /\ is_Some (metricsOf demo_final).
Proof.
  assert (Forall (fun r => iterations r <> []) (delivered demo_session))
    as Hdelivered by (by repeat constructor).
  assert (acts (fun _ => 0%float) demo_session initialState
          = Some demo_final) as Hrun by (vm_compute; reflexivity).
  split; [exact Hdelivered|]. split; [exact Hrun|].
  exact (proj1 (proj2 (reachable_cursor_in_range (fun _ => 0%float)
                         demo_session demo_final Hdelivered Hrun))).
Defined.

(** ** The derivation of the metrics panel *)

Lemma slice_prefix {A} (l : list A) (e : Z) :
  0 <= e -> JS.slice l 0 e = take (Z.to_nat e) l.
Proof.
  intros He. unfold JS.slice, JS.length. cbn [Z.ltb Z.compare].
  destruct (Z.ltb_spec e 0) as [?|_]; [lia|].
  rewrite (Z.min_l 0) by lia. change (Z.to_nat 0) with 0%nat.
  rewrite drop_0, Z.sub_0_r.
  destruct (Z.le_ge_cases e (Z.of_nat (List.length l))) as [Hle|Hge].
  - by rewrite Z.min_l.
  - rewrite Z.min_r, Nat2Z.id by done.
    rewrite (take_ge l (List.length l)) by lia.
    by rewrite (take_ge l (Z.to_nat e)) by lia.
Qed.

(** The number of frames of a list that are flagged as tunneling. *)
Definition tunneling_count (frames : list IterationData) : Z :=
  JS.length (List.filter tunneling frames).

Lemma tunneling_count_take_mono (frames : list IterationData) (n m : nat) :
  (n <= m)%nat ->
  tunneling_count (take n frames) <= tunneling_count (take m frames).
Proof.
  intros Hnm. unfold tunneling_count, JS.length.
  replace m with (n + (m - n))%nat by lia.
  rewrite <- take_take_drop, List.filter_app, length_app. lia.
Qed.

(** What a successful derivation returns, field by field. *)
Lemma derive_Some (data : OptimizationResponse) (k : Z) (nodes : list Node.t)
    (d : Derived.t) :
  derive (Some data) k nodes = Some d ->
  exists frame,
    JS.at_ (iterations data) k = Some frame
    /\ Derived.latest d = Some frame
    /\ Derived.routeDetails d = current_route frame
    /\ Derived.chartData d = JS.slice (iterations data) 0 (k + 1)
    /\ Derived.cumulativeTunneling d
       = tunneling_count (JS.slice (iterations data) 0 (k + 1))
    /\ Derived.isFinished d = (k =? JS.length (iterations data) - 1)
    /\ Derived.currentRealDist d
       = calculateRouteDistance nodes (current_route frame)
    /\ Derived.bestRealDist d
       = calculateRouteDistance nodes (best_route frame).
Proof.
  unfold derive. intros Hd.
  destruct (JS.at_ (iterations data) k) as [frame|]; [|done].
  destruct (JS.at_ (iterations data) 0) as [first|]; [|done].
  destruct (convergenceStep data) as [c|]; [|done].
  cbn in Hd. injection Hd as <-. by exists frame.
Qed.

Lemma derive_in_range (data : OptimizationResponse) (k : Z)
    (nodes : list Node.t) :
  is_Some (derive (Some data) k nodes)
  <-> 0 <= k < JS.length (iterations data).
Proof. by rewrite derive_is_Some, at_in_range. Qed.

(** X3: with a result held, the derivation of the metrics panel succeeds
    exactly when the cursor is an index of the iterations array; for any
    other cursor, -1 included, it throws. *)
Theorem derive_succeeds_iff (data : OptimizationResponse) (k : Z)
    (nodes : list Node.t) :
  is_Some (derive (Some data) k nodes)
  <-> 0 <= k < JS.length (iterations data).
Proof.
  rewrite derive_is_Some. unfold JS.at_, JS.length.
  destruct (Z.ltb_spec k 0) as [Hneg|Hpos].
  - split; [by intros [? ?]|lia].
  - rewrite lookup_lt_is_Some. lia.
Qed.

(** X4: when the derivation succeeds at cursor [k], the chart shows the
    first [k+1] frames, the tunneling counter is the number of those frames
    whose tunneling flag is set, it lies between 0 and [k+1], and it does
    not decrease when the cursor moves forward. *)
Theorem cumulativeTunneling_counts (data : OptimizationResponse) (k : Z)
    (nodes : list Node.t) (d : Derived.t) :
  derive (Some data) k nodes = Some d ->
  Derived.chartData d = take (Z.to_nat (k + 1)) (iterations data)
  /\ JS.length (Derived.chartData d) = k + 1
  /\ Derived.cumulativeTunneling d
     = tunneling_count (take (Z.to_nat (k + 1)) (iterations data))
  /\ 0 <= Derived.cumulativeTunneling d <= k + 1
  /\ (forall k' d', k <= k' ->
        derive (Some data) k' nodes = Some d' ->
        Derived.cumulativeTunneling d <= Derived.cumulativeTunneling d').
Proof.
  intros Hd.
  assert (0 <= k < JS.length (iterations data)) as Hk.
  { apply derive_in_range with nodes. by eexists. }
  destruct (derive_Some _ _ _ _ Hd) as (frame & _ & _ & _ & Hchart & Hcum & _).
  rewrite slice_prefix in Hchart, Hcum by lia.
  assert (JS.length (take (Z.to_nat (k + 1)) (iterations data)) = k + 1)
    as Hlen.
  { unfold JS.length in *. rewrite length_take. lia. }
  split; [done|]. split; [by rewrite Hchart|]. split; [done|]. split.
  - rewrite Hcum. unfold tunneling_count, JS.length in *.
    pose proof (filter_length_le tunneling
                  (take (Z.to_nat (k + 1)) (iterations data))). lia.
  - intros k' d' Hkk' Hd'.
    destruct (derive_Some _ _ _ _ Hd') as (_ & _ & _ & _ & _ & Hcum' & _).
    rewrite slice_prefix in Hcum' by lia. rewrite Hcum, Hcum'.
    apply tunneling_count_take_mono. lia.
Qed.

Lemma cumulativeTunneling_counts_witness :
  is_Some (derive (Some two_frames) 1 two_stops)
  /\ forall d, derive (Some two_frames) 1 two_stops = Some d ->
       Derived.cumulativeTunneling d = 1.
Proof.
  split; [vm_compute; eauto|].
  intros d Hd.
  destruct (cumulativeTunneling_counts two_frames 1 two_stops d Hd)
    as (_ & _ & Hcum & _).
  exact Hcum.
Defined.

(** X5: whenever a result is held and the derivation of the metrics panel
    succeeds, the panel and the visualizer show the same frame, the route
    listed in the panel is the current route of that frame, the two
    distances of the panel are the route distances of its current and best
    routes over the session's nodes, and the panel reports the playback as
    finished exactly when the cursor is at the last index. *)
Theorem metrics_show_current_frame (s : AppState) (r : OptimizationResponse)
    (d : Derived.t) :
  result s = Some r -> metricsOf s = Some d ->
  exists frame,
    currentIteration s = Some frame
    /\ Derived.latest d = Some frame
    /\ Derived.routeDetails d = current_route frame
    /\ Derived.currentRealDist d
       = calculateRouteDistance (nodes s) (current_route frame)
    /\ Derived.bestRealDist d
       = calculateRouteDistance (nodes s) (best_route frame)
    /\ (Derived.isFinished d = true <-> Finished s r).
Proof.
  intros Hr Hd. unfold metricsOf in Hd. rewrite Hr in Hd.
  assert (0 <= playbackIndex s < JS.length (iterations r)) as Hk.
  { apply derive_in_range with (nodes s). by eexists. }
  destruct (derive_Some _ _ _ _ Hd)
    as (frame & Hframe & Hlatest & Hroute & _ & _ & Hfin & Hcur & Hbest).
  exists frame. unfold currentIteration, Finished. rewrite Hr.
  destruct (Z.geb_spec (playbackIndex s) 0) as [_|?]; [|lia].
  repeat (split; [done|]). rewrite Hfin, Z.eqb_eq.
  split; [by intros ->|by intros [_ ?]].
Qed.

Lemma metrics_show_current_frame_witness :
  result showing_two_frames = Some two_frames
  /\ is_Some (metricsOf showing_two_frames)
  /\ forall d, metricsOf showing_two_frames = Some d ->
       Derived.latest d = currentIteration showing_two_frames.
Proof.
  split; [reflexivity|]. split; [vm_compute; eauto|].
  intros d Hd.
  destruct (metrics_show_current_frame showing_two_frames two_frames d
              eq_refl Hd) as (frame & Hcur & Hlatest & _).
  by rewrite Hcur, Hlatest.
Defined.

(** The first element that a search finds, with its position. *)
Lemma find_first {A} (f : A -> bool) (l : list A) (x : A) :
  List.find f l = Some x ->
  exists i,
    l !! i = Some x /\ f x = true
    /\ forall j y, (j < i)%nat -> l !! j = Some y -> f y = false.
Proof.
  induction l as [|a l IH]; [done|]. cbn.
  destruct (f a) eqn:Hfa.
  - intros [= <-]. exists 0%nat. split; [done|]. split; [done|]. lia.
  - intros Hfind. destruct (IH Hfind) as (i & Hi & Hfx & Hbefore).
    exists (S i). split; [done|]. split; [done|].
    intros [|j] y Hj Hy; cbn in Hy; [congruence|].
    eapply Hbefore; [|done]. lia.
Qed.

(** X6: the convergence step, when the search for it succeeds, is the step
    of a frame of the array: of the first frame whose best energy is within
    the tolerance of the final best energy, every earlier frame being
    outside it, or, when no frame is within the tolerance, of the last
    frame. *)
Theorem convergenceStep_first_match (data : OptimizationResponse) (c : Z) :
  convergenceStep data = Some c ->
  let within :=
    near_final (FinalResult.best_energy (final_result data)) in
  exists i frame,
    iterations data !! i = Some frame /\ step frame = c
    /\ ((within frame = true
         /\ forall j earlier, (j < i)%nat ->
              iterations data !! j = Some earlier -> within earlier = false)
        \/ (S i = List.length (iterations data)
            /\ forall other, other ∈ iterations data -> within other = false)).
Proof.
  unfold convergenceStep. cbv zeta.
  destruct (List.find _ (iterations data)) as [bestIter|] eqn:Hfind.
  - intros [= <-]. destruct (find_first _ _ _ Hfind) as (i & Hi & Hw & Hb).
    exists i, bestIter. split; [done|]. split; [done|]. by left.
  - rewrite at_last, last_lookup.
    destruct (iterations data !! _) as [frame|] eqn:Hlast; [|done].
    intros [= <-]. eexists _, frame. split; [done|]. split; [done|].
    right. split.
    + apply lookup_lt_Some in Hlast. lia.
    + intros other Hin%list_elem_of_In. by apply (find_none _ _ Hfind).
Qed.

Lemma convergenceStep_first_match_witness :
  convergenceStep two_frames = Some 0
  /\ exists i frame,
       iterations two_frames !! i = Some frame /\ step frame = 0.
Proof.
  split; [vm_compute; reflexivity|].
  destruct (convergenceStep_first_match two_frames 0 eq_refl)
    as (i & frame & Hi & Hstep & _).
  by exists i, frame.
Defined.

(** ** The service call, its log and its payload *)

(** X7: with a credential, [runOptimization] constructs the client once
    and sends exactly one request, whatever the answer: the call is never
    repeated.  When it resolves nothing more is logged; when it throws,
    for a rejected request, an absent or empty text or a failed parse, the
    error is written to the console once and the same error is thrown. *)
Theorem runOptimization_one_request
    (h : Host) (nodes : list Node.t) (params : OptimizationParams)
    (startNodeId : Z) (context : option string) (apiKey : string) :
  API_KEY h = Some apiKey -> apiKey <> EmptyString ->
  (run (runOptimization h nodes params startNodeId context)).1
  = [ NewGoogleGenAI apiKey;
      GenerateContent apiKey
        (optimizationRequest h nodes params startNodeId context) ]
    ++ match (run (runOptimization h nodes params startNodeId context)).2 with
       | inl e => [ ConsoleError "Optimization failed:" e ]
       | inr _ => []
       end.
Proof.
  intros Hkey Hne. unfold run, runOptimization. rewrite Hkey.
  destruct apiKey as [|c apiKey]; [done|].
  unfold await, try_catch, emit, settle, throw; cbn.
  destruct (generateContent h _ _) as [rejection|[[|c' text]|]]; try done.
  by destruct (JSON_parse h _).
Qed.

Lemma runOptimization_one_request_witness :
  (run (runOptimization host_no_frames two_stops (params initialState)
          0 None)).1
  = [ NewGoogleGenAI "secret";
      GenerateContent "secret"
        (optimizationRequest host_no_frames two_stops (params initialState)
           0 None) ].
Proof.
  exact (runOptimization_one_request host_no_frames two_stops
           (params initialState) 0 None "secret"%string eq_refl
           ltac:(discriminate)).
Defined.


(** ** The optimize request as a whole *)

(** X9: whatever the service does, [handleOptimize] ends with the
    optimizing flag cleared and with the nodes, parameters, scenario and
    start node it began with, in one of two states: a result with the
    cursor at 0, playing, no error, and the measured duration; or no
    result, the cursor at -1, duration 0 and a non-empty error message.
    Its log is that of the service call, and from an idle state it is the
    start update followed by the update for the outcome. *)
Theorem handleOptimize_settles
    (load_random : nat -> float) (h : Host) (startTime endTime : float)
    (s : AppState) :
  let out := handleOptimize load_random h startTime endTime s in
  out.1 = (awaited load_random h s).1
  /\ isOptimizing out.2 = false
  /\ nodes out.2 = nodes s /\ params out.2 = params s
  /\ scenario out.2 = scenario s /\ startNodeId out.2 = startNodeId s
  /\ ((exists r,
         (awaited load_random h s).2 = inr r
         /\ result out.2 = Some r /\ error out.2 = None
         /\ playbackIndex out.2 = 0 /\ isPlaying out.2 = true
         /\ executionTime out.2 = (endTime - startTime)%float)
      \/ (exists e m,
            (awaited load_random h s).2 = inl e
            /\ result out.2 = None /\ error out.2 = Some m
            /\ m <> EmptyString
            /\ playbackIndex out.2 = -1 /\ executionTime out.2 = 0%float))
  /\ (isOptimizing s = false ->
      acts load_random
        [ OnOptimizeStart;
          match (awaited load_random h s).2 with
          | inr r => OnOptimizeResolve r (endTime - startTime)%float
          | inl e => OnOptimizeThrow e
          end ] s
      = Some out.2).
Proof.
  cbv zeta. unfold handleOptimize. fold (awaited load_random h s).
  destruct (awaited load_random h s) as [log [e|r]]; cbn [fst snd].
  - repeat (split; [done|]). split.
    + right. exists e, (JS.or_else e "An unexpected error occurred").
      repeat (split; [done|]). split; [|done]. by destruct e.
    + intros Hidle. cbn. unfold when. by rewrite Hidle.
  - repeat (split; [done|]). split.
    + left. by exists r.
    + intros Hidle. cbn. unfold when. by rewrite Hidle.
Qed.

(** X10: the reshuffle button acts only in the random scenario, where it
    yields exactly [nodeCount] unlabelled nodes with the ids 0 to
    [nodeCount]-1 in order, whatever the draws, clears the result and the
    cursor and selects node 0; in every other scenario it leaves the
    state, its result included, as it is. *)
Theorem handleResetNodes_effect (Math_random : nat -> float)
    (nodeCount : nat) (s : AppState) :
  let next := handleResetNodes Math_random nodeCount s in
  (scenario s <> random -> next = s)
  /\ (scenario s = random ->
      Node.id <$> nodes next = ids_upto nodeCount
      /\ List.length (nodes next) = nodeCount
      /\ Forall (fun n => Node.label n = None) (nodes next)
      /\ result next = None /\ playbackIndex next = -1
      /\ startNodeId next = 0 /\ isPlaying next = false
      /\ params next = params s /\ error next = error s).
Proof.
  cbv zeta. unfold handleResetNodes. split.
  - by destruct (scenario s).
  - intros ->. cbn.
    destruct (generateNodes_ids Math_random nodeCount) as [Hids Hlen].
    split; [done|]. split; [done|]. split; [|done].
    unfold generateNodes, JS.Array_from. apply Forall_forall.
    intros n Hn. apply list_elem_of_In, in_map_iff in Hn as (i & <- & _).
    done.
Qed.

(** ** Playback: skipping, replaying, pausing *)

(** X11: with a result of at least one frame held, the skip button yields
    the Finished state, paused, in which the interval is not installed;
    pressing play there and letting as many periods pass as there are
    frames replays the result and ends in that same state again.  Without
    a result the skip handler throws. *)
Theorem replay_returns_to_end (s : AppState) (r : OptimizationResponse) :
  result s = Some r -> iterations r <> [] ->
  exists e,
    skipToEnd s = Some e
    /\ Finished e r /\ isPlaying e = false /\ period e = e
    /\ playbackIndex (togglePlay e) = 0
    /\ periods (List.length (iterations r)) (togglePlay e) = e.
Proof.
  intros Hr Hne. unfold skipToEnd. rewrite Hr. cbn. eexists. split; [done|].
  set (e := {| nodes := nodes s; playbackIndex := _ |}).
  assert (0 < List.length (iterations r))%nat as Hlen.
  { destruct (iterations r); [done|cbn; lia]. }
  assert (togglePlay e = with_playing true (with_cursor 0 e)) as Htoggle.
  { unfold togglePlay. cbn. by rewrite Z.geb_leb, Z.leb_refl. }
  split; [done|]. split; [done|]. split; [by apply period_idle|].
  split; [by rewrite Htoggle|].
  replace (List.length (iterations r))
    with (S (List.length (iterations r) - 1)) at 1 by lia.
  rewrite periods_S, Htoggle.
  rewrite (periods_advance r) by (done || cbn; unfold JS.length; lia).
  rewrite (period_playing r), (tick_stops r)
    by (done || cbn; unfold JS.length; lia).
  unfold with_playing, with_cursor, e; cbn. f_equal.
  unfold JS.length. lia.
Qed.

Lemma replay_returns_to_end_witness :
  skipToEnd showing_two_frames = Some showing_two_frames
  /\ periods 2 (togglePlay showing_two_frames) = showing_two_frames.
Proof.
  destruct (replay_returns_to_end showing_two_frames two_frames eq_refl
              ltac:(discriminate)) as (e & Hskip & _ & _ & _ & _ & Hreplay).
  change (Some showing_two_frames = Some e) in Hskip.
  injection Hskip as <-.
  split; [reflexivity|exact Hreplay].
Defined.

(** X12: before the last frame, and also when no result is held, the play
    button only flips the play flag: the cursor stays where it is, and
    pressing the button twice gives back the state. *)
Theorem togglePlay_twice (s : AppState) :
  (forall r, result s = Some r ->
     playbackIndex s < JS.length (iterations r) - 1) ->
  togglePlay s = with_playing (negb (isPlaying s)) s
  /\ playbackIndex (togglePlay s) = playbackIndex s
  /\ togglePlay (togglePlay s) = s.
Proof.
  intros Hbefore.
  assert (forall t, result t = result s -> playbackIndex t = playbackIndex s ->
            togglePlay t = with_playing (negb (isPlaying t)) t) as Hflip.
  { intros t Hres Hcur.
    assert (match result t with
            | Some response =>
                playbackIndex t >=? JS.length (iterations response) - 1
            | None => false
            end = false) as Hend.
    { rewrite Hres, Hcur. destruct (result s) as [r|]; [|done].
      specialize (Hbefore r eq_refl). rewrite Z.geb_leb.
      apply Z.leb_gt. lia. }
    unfold togglePlay. cbv zeta. by rewrite Hend. }
  rewrite (Hflip s) by done. split; [done|]. split; [done|].
  rewrite Hflip by done. unfold with_playing; cbn.
  rewrite negb_involutive. by destruct s.
Qed.

Lemma togglePlay_twice_witness :
  playbackIndex (togglePlay ready_two_frames) = 0
  /\ togglePlay (togglePlay ready_two_frames) = ready_two_frames.
Proof.
  assert (forall r, result ready_two_frames = Some r ->
            playbackIndex ready_two_frames < JS.length (iterations r) - 1)
    as Hbefore.
  { intros r [= <-]. vm_compute. reflexivity. }
  destruct (togglePlay_twice ready_two_frames Hbefore) as (_ & Hcur & Htwice).
  split; [exact Hcur|exact Htwice].
Defined.

(** ** The drawing and the route table, leg by leg *)

(** The entry after position [i] of a route, wrapping around, is the
    second component of the [i]-th closed pair. *)
Lemma closed_pairs_lookup (route : list Z) (i : nat) (a : Z) :
  route !! i = Some a ->
  exists b,
    route !! ((i + 1) mod List.length route)%nat = Some b
    /\ closed_pairs route !! i = Some (a, b).
Proof.
  intros Ha. pose proof (lookup_lt_Some _ _ _ Ha) as Hi.
  destruct (lookup_lt_is_Some_2 (rotate 1 route) i) as [b Hb].
  { by rewrite length_rotate. }
  exists b. rewrite lookup_successor by done. split; [done|].
  unfold closed_pairs. by rewrite lookup_zip_with, Ha, Hb.
Qed.

(** X13: the visualizer draws one arrow slot per entry of the route, and
    the slot of a leg holds an arrow exactly when both ends of the leg
    resolve, that is, exactly for the legs that the route distance of the
    metrics panel adds up; without a route nothing is drawn. *)
Theorem arrows_match_legs (Number_toString : float -> string)
    (nodes : list Node.t) (route : list Z) :
  List.length (arrows Number_toString nodes (Some route)) = List.length route
  /\ Forall2 (fun a l => is_Some a <-> is_Some l)
       (arrows Number_toString nodes (Some route)) (legs nodes route)
  /\ arrows Number_toString nodes None = [].
Proof.
  split; [unfold arrows; by rewrite length_imap|]. split; [|done].
  apply Forall2_lookup. intros i. unfold arrows, legs.
  rewrite list_lookup_imap, list_lookup_fmap.
  destruct (route !! i) as [a|] eqn:Ha.
  - destruct (closed_pairs_lookup route i a Ha) as (b & Hnext & Hpair).
    rewrite Hpair. cbn. constructor.
    unfold arrow, leg. rewrite Hnext. cbn.
    destruct (find_node nodes a), (find_node nodes b); cbn;
      split; intros [? ?]; by eauto.
  - cbn. assert (closed_pairs route !! i = None) as ->; [|constructor].
    apply lookup_ge_None. rewrite length_closed_pairs.
    by apply lookup_ge_None.
Qed.

(** X14: the route table has one row per entry of the route, numbered
    from 1, and the distance text of a row is the formatted length of the
    corresponding leg of the route distance, or two dashes when an end of
    the leg does not resolve. *)
Theorem routeRows_match_legs (toFixed1 : float -> string)
    (nodes : list Node.t) (routeDetails : list Z) :
  RouteRow.number <$> routeRows toFixed1 nodes routeDetails
  = seq 1 (List.length routeDetails)
  /\ RouteRow.distText <$> routeRows toFixed1 nodes routeDetails
     = (fun l => match l with
                 | Some d => toFixed1 d
                 | None => "--"%string
                 end) <$> legs nodes routeDetails.
Proof.
  unfold routeRows, legs. split; apply list_eq; intros i;
    rewrite !list_lookup_fmap, list_lookup_imap;
    destruct (routeDetails !! i) as [a|] eqn:Ha.
  - rewrite lookup_seq_lt by eauto using lookup_lt_Some. cbn. f_equal.
    unfold routeRow.
    destruct (find_node nodes a) as [n1|];
      [destruct (mbind (find_node nodes) _) as [n2|]|]; cbn; lia.
  - rewrite lookup_seq_ge; [done|]. by apply lookup_ge_None.
  - destruct (closed_pairs_lookup routeDetails i a Ha) as (b & Hnext & Hpair).
    rewrite Hpair. cbn. f_equal. unfold routeRow, leg. rewrite Hnext. cbn.
    by destruct (find_node nodes a), (find_node nodes b).
  - cbn. assert (closed_pairs routeDetails !! i = None) as ->; [|done].
    apply lookup_ge_None. rewrite length_closed_pairs.
    by apply lookup_ge_None.
Qed.

(** X15: the points of the path are the coordinates of the ids of the
    route that resolve, in route order: the filter drops exactly the ids
    that resolve to no node.  The path data is empty exactly when there is
    no route or the route is empty, so a non-empty route none of whose ids
    resolves still yields a path, one without points. *)
Theorem pathD_points (Number_toString : float -> string)
    (nodes : list Node.t) (route : list Z) :
  points Number_toString nodes route
  = (fun n => (Number_toString (Node.x n) ++ ","
               ++ Number_toString (Node.y n))%string)
    <$> omap (find_node nodes) route
  /\ (pathD Number_toString nodes (Some route) = EmptyString <-> route = [])
  /\ pathD Number_toString nodes None = EmptyString
  /\ (route <> [] -> omap (find_node nodes) route = [] ->
      pathD Number_toString nodes (Some route) = "M  Z"%string).
Proof.
  assert (points Number_toString nodes route
          = (fun n => (Number_toString (Node.x n) ++ ","
                       ++ Number_toString (Node.y n))%string)
            <$> omap (find_node nodes) route) as Hpoints.
  { unfold points. induction route as [|a route IH]; [done|].
    cbn [List.map List.filter]. rewrite IH. unfold point.
    cbn [omap list_omap]. destruct (find_node nodes a) as [n|]; [|done].
    assert (forall sx sy : string,
              JS.truthy (Some (sx ++ "," ++ sy)%string) = true) as ->
      by (by intros [|c sx] sy).
    done. }
  split; [done|]. split; [|split; [done|]].
  - unfold pathD. by destruct route.
  - intros Hne Hnone. unfold pathD. rewrite Hpoints, Hnone.
    by destruct route.
Qed.
